(** * HyperMD core: token seeking and style range expansion

    A shallow embedding of [src/core/cm_utils.ts]: the [TokenSeeker] class
    ([setPos], [findNext]) and the function [expandRange], followed by the
    properties of the token-navigation core.

    Conventions of the embedding.
    - JavaScript numbers that hold character offsets and line numbers are
      integers ([Z]); token indices are naturals ([nat]).
    - A JavaScript string is a [string] of code units below 256.
    - An exception (the [TypeError] raised by reading a property of
      [undefined], the [SyntaxError] raised by [new RegExp]) is the
      completion [Throw]; the receiver's fields are then whatever the
      statements executed before the faulting one left in them.
    - The host editor ([cm]) is a record of the functions the code calls on
      it; the calls to [getLineTokens] made by a search are recorded in a
      trace. *)

From Stdlib Require Import ZArith List Bool String Ascii Lia Arith.
Import ListNotations.
Local Open Scope Z_scope.

(** ** Data model *)

(** A CodeMirror token: the half-open interval [[start, end)] of one line
    and its style; [type] is [null] for unstyled text. *)
Record Token := mkToken {
  start : Z;
  end_ : Z;
  type : option string
}.

(** [String(token.type)], the conversion [RegExp.prototype.test] applies to
    its argument: [null] becomes the four letters of its name. *)
Definition type_string (t : Token) : string :=
  match type t with
  | Some s => s
  | None => "null"%string
  end.

(** [{ line, ch }] *)
Module Position.
Record t := mk { line : Z; ch : Z }.
End Position.

(** A line handle is an object compared by identity ([===]). *)
Definition LineHandle := nat.

(** The part of the editor the code uses: its lines are numbered
    [firstLine] to [lastLine], [getLine n] is the handle of line [n], and
    [lineNo_of h] is [h.lineNo()]. *)
Record cm_t := {
  firstLine : Z;
  lastLine : Z;
  getLine : Z -> LineHandle;
  lineNo_of : LineHandle -> Z;
  getLineTokens : Z -> list Token
}.

(** Modelled from the spec: the editor's [cm.getLineHandle(n)], which is
    not part of this file and of which the spec gives the signature. As in
    CodeMirror, it answers the handle of line [n] when the document has a
    line [n], and [undefined] ([None]) when it has none. *)
Definition getLineHandle (cm : cm_t) (n : Z) : option LineHandle :=
  if (firstLine cm <=? n) && (n <=? lastLine cm) then Some (getLine cm n)
  else None.

(** Completion of a method call. *)
Inductive completion (A : Type) : Type :=
| Return (a : A)
| Throw.
Arguments Return {A} a.
Arguments Throw {A}.

(** ** Loops over a token list *)

(** [for (; i < tokens.length; i++) if (p(tokens[i])) break], run on the
    tokens from index [i] on: the index the loop stops at, and the token it
    stopped on when it left through [break]. *)
Fixpoint scan (p : Token -> bool) (rest : list Token) (i : nat)
  : nat * option Token :=
  match rest with
  | [] => (i, None)
  | t :: rest' => if p t then (i, Some t) else scan p rest' (S i)
  end.

Definition for_break (p : Token -> bool) (tokens : list Token) (i : nat)
  : nat * option Token :=
  scan p (skipn i tokens) i.

(** ** TokenSeeker *)

(** The four fields of a seeker once [setPos] has assigned them; [line]
    is [undefined] ([None]) after a call that named no line. *)
Record Cursor := mkCursor {
  line : option LineHandle;
  lineNo : Z;
  lineTokens : list Token;
  i_token : nat
}.

(** A seeker: [None] right after [new TokenSeeker(cm)], when the four
    fields are still [undefined]. *)
Definition TokenSeeker := option Cursor.

(** The first argument of [setPos(line, ch, precise)]. *)
Inductive LineArg :=
| LineNumber (n : Z)
| Handle (h : LineHandle).

(** The call shapes of [setPos]: [setPos(ch)] and
    [setPos(line, ch, precise?)], an omitted [precise] being [false]. *)
Inductive SetPosArgs :=
| OnlyCh (ch : Z)
| LineCh (l : LineArg) (ch : Z) (precise : bool).

(** [if (typeof line === 'number') line = this.cm.getLineHandle(line)] *)
Definition resolve (cm : cm_t) (l : LineArg) : option LineHandle :=
  match l with
  | LineNumber n => getLineHandle cm n
  | Handle h => Some h
  end.

(** [a === b] on line handles that may be [undefined]. *)
Definition same_handle (a b : option LineHandle) : bool :=
  match a, b with
  | Some h, Some h' => Nat.eqb h h'
  | None, None => true
  | _, _ => false
  end.

(** The tail of [setPos]: scan forward from [i] to the first token whose
    [end > ch] and store the index. *)
Definition seek (l : option LineHandle) (no : Z) (tokens : list Token)
    (i : nat) (ch : Z) : Cursor :=
  mkCursor l no tokens (fst (for_break (fun t => end_ t >? ch) tokens i)).

(** The branch [precise || !sameLine] for a line that exists. *)
Definition refetch (cm : cm_t) (l : LineHandle) (ch : Z) : Cursor :=
  let no := lineNo_of cm l in
  seek (Some l) no (getLineTokens cm no) 0 ch.

(** The seeker after [this.line = undefined]: the other fields stay. *)
Definition forget_line (this : TokenSeeker) : TokenSeeker :=
  match this with
  | Some c => Some (mkCursor None (lineNo c) (lineTokens c) (i_token c))
  | None => None
  end.

(** The branch "try to speed-up seeking". [this.lineTokens[i_token]] is
    [undefined] past the end of the array and [token.start] then throws,
    before any field is written. *)
Definition speed_up (c : Cursor) (ch : Z) : completion unit * TokenSeeker :=
  match nth_error (lineTokens c) (i_token c) with
  | None => (Throw, Some c)
  | Some token =>
      let i := if start token >? ch then 0%nat else i_token c in
      (Return tt, Some (seek (line c) (lineNo c) (lineTokens c) i ch))
  end.

Definition setPos (cm : cm_t) (this : TokenSeeker) (args : SetPosArgs)
  : completion unit * TokenSeeker :=
  match args with
  | OnlyCh ch =>
      (* line = this.line, hence sameLine; precise is undefined *)
      match this with
      | None => (Throw, None)
      | Some c => speed_up c ch
      end
  | LineCh l ch precise =>
      let line' := resolve cm l in
      let sameLine :=
        same_handle line'
          (match this with Some c => line c | None => None end) in
      if precise || negb sameLine
      then
        (* this.line = line; this.lineNo = line.lineNo(), which throws
           when the number named no line *)
        match line' with
        | Some h => (Return tt, Some (refetch cm h ch))
        | None => (Throw, forget_line this)
        end
      else
        match this with
        | None => (Throw, None)
        | Some c => speed_up c ch
        end
  end.

(** The second argument of [findNext]: omitted, a boolean ([maySpanLines])
    or a number ([i_token_since]), which is a token index and so a
    natural number. *)
Inductive Varg :=
| Omitted
| MaySpanLines (b : bool)
| TokenSince (i : nat).

(** [condition]: a [RegExp], given by what its [test] answers on a string
    (a pattern without the [g] and [y] flags, whose [test] keeps no state),
    or a function on tokens, a predicate without effects. *)
Inductive Condition :=
| RegExp (test : string -> bool)
| Function (f : Token -> bool).

(** [(typeof condition === "function") ? condition(token_tmp)
      : condition.test(token_tmp.type)] *)
Definition holds (condition : Condition) (token_tmp : Token) : bool :=
  match condition with
  | RegExp test => test (type_string token_tmp)
  | Function f => f token_tmp
  end.

(** What [findNext] returns when it found a token. *)
Module Found.
Record t := mk { lineNo : Z; token : Token; i_token : nat }.
End Found.

(** The variables of [findNext] that its loops and the [eachLine] callback
    assign, and the trace of [cm.getLineTokens] calls. *)
Record Vars := mkVars {
  v_lineNo : Z;
  v_tokens : list Token;
  v_token : option Token;
  v_i_token : nat;
  fetched : list Z
}.

(** [for (; i_token < tokens.length; i_token++)
      if (tokens[i_token].start >= since.ch) break] *)
Definition skip_before (since_ch : Z) (tokens : list Token) (i : nat) : nat :=
  fst (for_break (fun t => start t >=? since_ch) tokens i).

(** Modelled from the spec: the host's [cm.eachLine(from, to, op)], which
    is not part of this file. It visits the handles of the lines
    [from <= n < to] in increasing order and stops as soon as the visitor
    returns a truthy value. The visitor assigns variables of the enclosing
    function, so their state [S] is threaded through. *)
Fixpoint eachLine_iter {S : Type} (cm : cm_t)
    (op : LineHandle -> S -> bool * S) (count : nat) (n : Z) (s : S) : S :=
  match count with
  | O => s
  | Datatypes.S count' =>
      let (stop, s') := op (getLine cm n) s in
      if stop then s' else eachLine_iter cm op count' (n + 1) s'
  end.

Definition eachLine {S : Type} (cm : cm_t) (from to : Z)
    (op : LineHandle -> S -> bool * S) (s : S) : S :=
  eachLine_iter cm op (Z.to_nat (to - from)) from s.

(** The callback [findNext] passes to [eachLine]. *)
Definition visit (cm : cm_t) (condition : Condition)
    (since : option Position.t) (line_i : LineHandle) (v : Vars)
  : bool * Vars :=
  let lineNo := lineNo_of cm line_i in
  let tokens := getLineTokens cm lineNo in
  let log := (fetched v ++ [lineNo])%list in
  let i_token :=
    match since with
    | Some p =>
        if lineNo =? Position.line p
        then skip_before (Position.ch p) tokens 0
        else 0%nat
    | None => 0%nat
    end in
  match for_break (holds condition) tokens i_token with
  | (i, Some token_tmp) => (true, mkVars lineNo tokens (Some token_tmp) i log)
  | (i, None) => (false, mkVars lineNo tokens (v_token v) i log)
  end.

(** The value of [i_token] when the scan of the tracked line begins:
    [this.i_token + 1] or the index given, moved by [since]. *)
Definition i_token_start (c : Cursor) (varg : Varg)
    (since : option Position.t) : nat :=
  let lineNo := lineNo c in
  let tokens := lineTokens c in
  let i_token :=
    match varg with
    | TokenSince i => i
    | _ => Datatypes.S (i_token c)
    end in
  match since with
  | Some p =>
      if Position.line p >? lineNo then List.length tokens
      else if Position.line p <? lineNo then i_token
      else skip_before (Position.ch p) tokens i_token
  | None => i_token
  end.

(** [findNext(condition, varg, since)] on a seeker whose fields are set. *)
Definition findNext_on (cm : cm_t) (c : Cursor) (condition : Condition)
    (varg : Varg) (since : option Position.t) : Vars :=
  let lineNo := lineNo c in
  let tokens := lineTokens c in
  let maySpanLines :=
    match varg with
    | MaySpanLines true => true
    | _ => false
    end in
  let (i_token, token) :=
    for_break (holds condition) tokens (i_token_start c varg since) in
  let v := mkVars lineNo tokens token i_token [] in
  match token with
  | None =>
      if maySpanLines then
        let startLine :=
          Z.max (match since with Some p => Position.line p | None => 0 end)
                (lineNo + 1) in
        eachLine cm startLine (lastLine cm + 1) (visit cm condition since) v
      else v
  | Some _ => v
  end.

(** [return token ? { lineNo, token, i_token } : null] *)
Definition result_of (v : Vars) : option Found.t :=
  match v_token v with
  | Some token => Some (Found.mk (v_lineNo v) token (v_i_token v))
  | None => None
  end.

(** The outcome of a [findNext] call: its completion, the seeker after the
    call, and the lines whose tokens it asked the editor for. *)
Record FindOutcome := mkOutcome {
  returned : completion (option Found.t);
  after : TokenSeeker;
  asked : list Z
}.

(** [findNext]. On a seeker just constructed [tokens] is [undefined] and
    the first [tokens.length] throws. *)
Definition findNext (cm : cm_t) (this : TokenSeeker) (condition : Condition)
    (varg : Varg) (since : option Position.t) : FindOutcome :=
  match this with
  | None => mkOutcome Throw this []
  | Some c =>
      let v := findNext_on cm c condition varg since in
      mkOutcome (Return (result_of v)) this (fetched v)
  end.

(** ** expandRange *)

(** The code units below 256 that [\s] matches: tab, line feed, vertical
    tab, form feed, carriage return, space and no-break space. *)
Definition is_space (c : ascii) : bool :=
  let n := nat_of_ascii c in
  ((9 <=? n)%nat && (n <=? 13)%nat) || (n =? 32)%nat || (n =? 160)%nat.

(** *** The literal search

    What the pattern [(?:^|\s) style (?:\s|$)] tests when no character of
    [style] has a meaning of its own in a pattern. *)

(** What is left of [s] after the literal [style], if [s] begins with it. *)
Fixpoint after_prefix (style s : string) : option string :=
  match style with
  | EmptyString => Some s
  | String a style' =>
      match s with
      | String b s' => if Ascii.eqb a b then after_prefix style' s' else None
      | EmptyString => None
      end
  end.

(** [style(?:\s|$)] matches at the beginning of [s]. *)
Definition style_here (style s : string) : bool :=
  match after_prefix style s with
  | Some EmptyString => true
  | Some (String c _) => is_space c
  | None => false
  end.

(** The search [test] performs for a match of
    [(?:^|\s) style (?:\s|$)], position by position; [boundary] tells
    whether [(?:^|\s)] matches just before [s]. *)
Fixpoint styleRE_search (style : string) (boundary : bool) (s : string)
  : bool :=
  (boundary && style_here style s) ||
  match s with
  | EmptyString => false
  | String c s' => styleRE_search style (is_space c) s'
  end.

(** The literal search for [style] as a whitespace-separated word of
    [s]. *)
Definition styleRE_test (style s : string) : bool :=
  styleRE_search style true s.

(** *** The pattern built from the style

    [style] is spliced into the source of the pattern as it is, so its
    characters are pattern syntax. The model knows the patterns whose
    [style] is made of ordinary characters and of [.], [^] and [$]; it
    knows that a [style] adding only these and unclosed [(] is no pattern;
    what [new RegExp] makes of any other source is a parameter. *)

(** The characters with a meaning of their own in a pattern:
    [^ $ \ . * + ? ( ) [ ] { } |]. *)
Definition syntax_char (c : ascii) : bool :=
  existsb (Ascii.eqb c) (list_ascii_of_string "^$\.*+?()[]{}|").

(** The pieces of a pattern the model knows: a character that stands for
    itself, [.], [^] and [$]. *)
Inductive atom :=
| Lit (c : ascii)
| AnyChar
| Bol
| Eol.

Definition atom_of (c : ascii) : option atom :=
  if Ascii.eqb c "." then Some AnyChar
  else if Ascii.eqb c "^" then Some Bol
  else if Ascii.eqb c "$" then Some Eol
  else if syntax_char c then None
  else Some (Lit c).

Fixpoint atoms_of (style : string) : option (list atom) :=
  match style with
  | EmptyString => Some []
  | String c style' =>
      match atom_of c, atoms_of style' with
      | Some a, Some atoms => Some (a :: atoms)
      | _, _ => None
      end
  end.

(** The line terminators below 256, which [.] does not match. *)
Definition line_terminator (c : ascii) : bool :=
  let n := nat_of_ascii c in (n =? 10)%nat || (n =? 13)%nat.

(** What is left of [s] after a match of [atoms] at its beginning; [bol]
    tells whether [s] is the whole input. *)
Fixpoint after_atoms (atoms : list atom) (bol : bool) (s : string)
  : option string :=
  match atoms with
  | [] => Some s
  | Lit a :: atoms' =>
      match s with
      | String b s' => if Ascii.eqb a b then after_atoms atoms' false s' else None
      | EmptyString => None
      end
  | AnyChar :: atoms' =>
      match s with
      | String b s' =>
          if line_terminator b then None else after_atoms atoms' false s'
      | EmptyString => None
      end
  | Bol :: atoms' => if bol then after_atoms atoms' bol s else None
  | Eol :: atoms' =>
      match s with
      | EmptyString => after_atoms atoms' bol s
      | String _ _ => None
      end
  end.

(** [atoms (?:\s|$)] matches at the beginning of [s]. *)
Definition atoms_here (atoms : list atom) (bol : bool) (s : string) : bool :=
  match after_atoms atoms bol s with
  | Some EmptyString => true
  | Some (String c _) => is_space c
  | None => false
  end.

(** The search [test] performs for a match of [(?:^|\s) atoms (?:\s|$)],
    position by position; [boundary] tells whether [(?:^|\s)] matches just
    before [s], and [bol] whether [s] is the whole input. *)
Fixpoint search_atoms (atoms : list atom) (boundary bol : bool) (s : string)
  : bool :=
  (boundary && atoms_here atoms bol s) ||
  match s with
  | EmptyString => false
  | String c s' => search_atoms atoms (is_space c) false s'
  end.

(** [style] adds to the pattern only pieces the model knows and [(]: when
    it has a [(], that group is never closed. *)
Fixpoint only_opens (style : string) : bool :=
  match style with
  | EmptyString => true
  | String c style' =>
      (Ascii.eqb c "(" || match atom_of c with Some _ => true | None => false end)
      && only_opens style'
  end.

(** [new RegExp(source)] for the sources the model does not know: a
    pattern, given by what its [test] answers on a string, or [None] when
    the constructor throws a [SyntaxError]. *)
Definition RegExpCtor := string -> option (string -> bool).

(** [new RegExp("(?:^|\\s)" + style + "(?:\\s|$)")]: the pattern, or [None]
    when the constructor throws. *)
Definition styleRE (js : RegExpCtor) (style : string)
  : option (string -> bool) :=
  match atoms_of style with
  | Some atoms => Some (search_atoms atoms true true)
  | None =>
      if only_opens style then None
      else js ("(?:^|\s)" ++ style ++ "(?:\s|$)")%string
  end.

(** [styleRE.test(token.type)] *)
Definition test_type (re : string -> bool) (token : Token) : bool :=
  re (type_string token).

(** [for (i = iSince; i < tokens.length; i++)
      if (styleRE.test(token.type)) to.ch = token.end else break],
    on the tokens from [iSince] on. *)
Fixpoint extend_right (p : Token -> bool) (rest : list Token) (to_ch : Z)
  : Z :=
  match rest with
  | [] => to_ch
  | token :: rest' =>
      if p token then extend_right p rest' (end_ token) else to_ch
  end.

(** [for (i = iSince; i >= 0; i--)
      if (!styleRE.test(token.type)) { from.ch = token.end; break }].
    The loop is entered with [i < tokens.length] only, so [tokens[i]] is
    always a token. *)
Fixpoint extend_left (p : Token -> bool) (tokens : list Token) (i : nat)
    (from_ch : Z) : Z :=
  match nth_error tokens i with
  | Some token =>
      if negb (p token) then end_ token
      else match i with
           | O => from_ch
           | S i' => extend_left p tokens i' from_ch
           end
  | None => from_ch
  end.

(** [{ from, to }] *)
Module Range.
Record t := mk { from : Position.t; to : Position.t }.
End Range.

Definition expandRange (js : RegExpCtor) (cm : cm_t) (pos : Position.t)
    (style : string) : completion (option Range.t) :=
  let line := Position.line pos in
  match styleRE js style with
  | None => Throw
  | Some re =>
      let tokens := getLineTokens cm line in
      let iSince :=
        fst (for_break (fun t => end_ t >=? Position.ch pos) tokens 0) in
      if Nat.eqb iSince (List.length tokens) then Return None
      else
        let to_ch :=
          extend_right (test_type re) (skipn iSince tokens) (Position.ch pos) in
        let from_ch := extend_left (test_type re) tokens iSince 0 in
        Return (Some (Range.mk (Position.mk line from_ch)
                        (Position.mk line to_ch)))
  end.

(** ** Vocabulary of the properties *)

(** The tokenizer contract: the tokens are contiguous, in left-to-right
    order, and cover [[from, to)]. *)
Fixpoint covers (from : Z) (tokens : list Token) (to : Z) : bool :=
  match tokens with
  | [] => from =? to
  | t :: rest =>
      (start t =? from) && (start t <=? end_ t) && covers (end_ t) rest to
  end.

(** [ch] lies in the half-open interval of [t]. *)
Definition contains (t : Token) (ch : Z) : Prop :=
  start t <= ch < end_ t.

(** The seekers a program can build: a new one, and what a [setPos] call
    leaves of a reachable one, whatever the editor holds at that time and
    however the call completes. *)
Inductive reachable : TokenSeeker -> Prop :=
| reach_new : reachable None
| reach_setPos (cm : cm_t) (this : TokenSeeker) (args : SetPosArgs) :
    reachable this -> reachable (snd (setPos cm this args)).

(** [c] tracks a line, and its cached line number and tokens are those the
    editor has. *)
Definition current (cm : cm_t) (c : Cursor) : Prop :=
  match line c with
  | Some h =>
      lineNo c = lineNo_of cm h /\
      lineTokens c = getLineTokens cm (lineNo c)
  | None => False
  end.

(** A sequence of [setPos(l, ch, precise)] calls, one per [ch]: the
    completion and the seeker after each call. *)
Fixpoint setPos_each (cm : cm_t) (this : TokenSeeker) (l : LineArg)
    (precise : bool) (chs : list Z) : list (completion unit * TokenSeeker) :=
  match chs with
  | [] => []
  | ch :: chs' =>
      let r := setPos cm this (LineCh l ch precise) in
      r :: setPos_each cm (snd r) l precise chs'
  end.

(** [chs] never decreases. *)
Fixpoint non_decreasing (chs : list Z) : bool :=
  match chs with
  | a :: (b :: _) as rest => (a <=? b) && non_decreasing rest
  | _ => true
  end.

(** The cursor is where a scan from the first token stops for some
    offset. *)
Definition settled (c : Cursor) : Prop :=
  exists ch0,
    i_token c = fst (for_break (fun t => end_ t >? ch0) (lineTokens c) 0).

(** The line number the [eachLine] callback computes for the [n]-th line. *)
Definition visited (cm : cm_t) (n : Z) : Z :=
  lineNo_of cm (getLine cm n).

(** In an editor in a consistent state the handle of line [n] reports
    line number [n], for the lines [from..lastLine]. *)
Definition consistent_from (cm : cm_t) (from : Z) : Prop :=
  forall n, from <= n <= lastLine cm -> visited cm n = n.

(** [Math.max(since ? since.line : 0, lineNo + 1)], where a search that
    spans lines starts. *)
Definition startLine (c : Cursor) (since : option Position.t) : Z :=
  Z.max (match since with Some p => Position.line p | None => 0 end)
        (lineNo c + 1).

(** Token [j] of line [no] is at or after [since], for a search that looks
    at the tokens from index [from] on: on the line of [since], some token
    between [from] and [j] starts at or after [since.ch]. *)
Definition since_allows (since : option Position.t) (no : Z)
    (tokens : list Token) (from j : nat) : Prop :=
  match since with
  | Some p =>
      Position.line p = no ->
      exists k u, (from <= k <= j)%nat /\ nth_error tokens k = Some u /\
                  Position.ch p <= start u
  | None => True
  end.

(** The index at which [findNext] starts on the tracked line when [since]
    does not move it. *)
Definition first_index (c : Cursor) (varg : Varg) : nat :=
  match varg with
  | TokenSince i => i
  | _ => S (i_token c)
  end.

(** Token [j] of the tracked line belongs to the searched range. *)
Definition searched_here (c : Cursor) (varg : Varg)
    (since : option Position.t) (j : nat) : Prop :=
  (first_index c varg <= j)%nat /\
  match since with
  | Some p => Position.line p <= lineNo c
  | None => True
  end /\
  since_allows since (lineNo c) (lineTokens c) (first_index c varg) j.

(** No token of the [n]-th line that the search would look at satisfies
    the condition. *)
Definition no_match (cm : cm_t) (condition : Condition)
    (since : option Position.t) (n : Z) : Prop :=
  forall j t,
    nth_error (getLineTokens cm (visited cm n)) j = Some t ->
    since_allows since (visited cm n) (getLineTokens cm (visited cm n)) 0 j ->
    holds condition t = false.

(** Token [t], at index [i], is the first token of the [n]-th line that
    the search would look at and that satisfies the condition. *)
Definition first_match (cm : cm_t) (condition : Condition)
    (since : option Position.t) (n : Z) (i : nat) (t : Token) : Prop :=
  let tokens := getLineTokens cm (visited cm n) in
  nth_error tokens i = Some t /\ holds condition t = true /\
  since_allows since (visited cm n) tokens 0 i /\
  forall j u, (j < i)%nat -> nth_error tokens j = Some u ->
              since_allows since (visited cm n) tokens 0 j ->
              holds condition u = false.

(** The line numbers [a, a+1, ..., b]. *)
Definition lines_between (a b : Z) : list Z :=
  map (fun k => a + Z.of_nat k) (seq 0 (Z.to_nat (b - a + 1))).

(** The fields of [s], split at the code units [\s] matches. *)
Fixpoint fields (s : string) : list string :=
  match s with
  | EmptyString => [EmptyString]
  | String c s' =>
      if is_space c then EmptyString :: fields s'
      else match fields s' with
           | w :: ws => String c w :: ws
           | [] => [String c EmptyString]
           end
  end.

(** A style as a whitespace-separated set of tags: its fields that are not
    empty. *)
Definition tags (s : string) : list string :=
  filter (fun w => negb (String.eqb w EmptyString)) (fields s).

(** [style] is one of the tags of [s]. *)
Definition has_tag (style s : string) : bool :=
  existsb (String.eqb style) (tags s).

(** [style] is a tag: not empty, and free of the code units [\s]
    matches. *)
Fixpoint no_space (s : string) : bool :=
  match s with
  | EmptyString => true
  | String c s' => negb (is_space c) && no_space s'
  end.

Definition is_tag (style : string) : bool :=
  negb (String.eqb style EmptyString) && no_space style.

(** [x] is the [end] of one of the tokens. *)
Definition token_end (tokens : list Token) (x : Z) : Prop :=
  exists t, In t tokens /\ end_ t = x.

(** ** Editors and seekers of the examples *)

Definition tok (a b : Z) (s : string) : Token := mkToken a b (Some s).

(** An editor whose lines carry the given tokens; the handle of line [n]
    is [n]. *)
Definition editor_of (lines : list (list Token)) : cm_t :=
  {| firstLine := 0;
     lastLine := Z.of_nat (List.length lines) - 1;
     getLine := fun n => Z.to_nat n;
     lineNo_of := fun h => Z.of_nat h;
     getLineTokens := fun n =>
       if n <? 0 then [] else nth (Z.to_nat n) lines [] |}.

(** [s] contains the code unit [c]: the test of the one-letter pattern. *)
Fixpoint includes (c : ascii) (s : string) : bool :=
  match s with
  | EmptyString => false
  | String d s' => Ascii.eqb c d || includes c s'
  end.

(** [/a/] and [/x/] *)
Definition re_a : Condition := RegExp (includes "a").
Definition re_x : Condition := RegExp (includes "x").

(** One line, one token. *)
Definition one_token : cm_t := editor_of [[tok 0 3 "a"]].

(** The seeker after [setPos(0, 3)]: the cursor is past the only token. *)
Definition past_end : TokenSeeker :=
  snd (setPos one_token None (LineCh (LineNumber 0) 3 false)).

(** The same line after an edit that made it longer. *)
Definition edited : cm_t := editor_of [[tok 0 5 "b"; tok 5 8 "a"]].

(** The seeker after [setPos(0, 1)] before that edit. *)
Definition stale : TokenSeeker :=
  snd (setPos one_token None (LineCh (LineNumber 0) 1 false)).

(** The line of the single-line search example, cursor on its first
    token. *)
Definition aba : cm_t :=
  editor_of [[tok 0 3 "a"; tok 3 6 "b"; tok 6 9 "a"]].

Definition aba_cursor : Cursor :=
  mkCursor (Some 0%nat) 0 [tok 0 3 "a"; tok 3 6 "b"; tok 6 9 "a"] 0%nat.

(** Three lines: no [x] on line 0, the second token of line 1 is its first
    [x], and line 2 has one too. *)
Definition three_lines : cm_t :=
  editor_of [[tok 0 3 "a"]; [tok 0 2 "b"; tok 2 5 "x"]; [tok 0 4 "x"]].

Definition three_lines_cursor : Cursor :=
  mkCursor (Some 0%nat) 0 [tok 0 3 "a"] 0%nat.

(** The line of the range expansion example. *)
Definition em_line : cm_t :=
  editor_of [[tok 0 4 "em"; tok 4 10 "em strong"; tok 10 14 "plain"]].

(** A seeker on the first token of that line. *)
Definition em_cursor : Cursor :=
  mkCursor (Some 0%nat) 0 (getLineTokens em_line 0) 0%nat.

(** An editor whose only line has no token. *)
Definition empty_line : cm_t := editor_of [[]].

(** ** getEveryCharToken *)

(** An element of the array [getEveryCharToken] returns: a slot that
    [new Array(n)] left empty, or a style ([null] for unstyled text). *)
Inductive Slot :=
| Hole
| Style (s : option string).

(** [a[i] = v] on a JavaScript array: an index past the end extends the
    array and leaves the slots in between empty. *)
Definition array_set (a : list Slot) (i : nat) (v : Slot) : list Slot :=
  if (i <? List.length a)%nat then firstn i a ++ v :: skipn (S i) a
  else a ++ repeat Hole (i - List.length a) ++ [v].

(** What the code reads of a line handle: [line.text.length]; [line.styles],
    the editor's cache [[gen, end1, style1, end2, style2, ...]], given by its
    pairs, and [None] while the line is not highlighted; and the handle, for
    [line.lineNo()]. *)
Record Line := mkLine {
  text_length : nat;
  styles : option (list (Z * option string));
  handle : LineHandle
}.

(** [count] rounds of [ans[i++] = s]. *)
Fixpoint fill (count : nat) (ans : list Slot) (i : nat) (s : option string)
  : list Slot * nat :=
  match count with
  | O => (ans, i)
  | S count' => fill count' (array_set ans i (Style s)) (S i) s
  end.

(** [while (i < i_to) ans[i++] = s] *)
Definition while_below (ans : list Slot) (i : nat) (i_to : Z)
    (s : option string) : list Slot * nat :=
  fill (Z.to_nat (i_to - Z.of_nat i)) ans i s.

(** [for (let j = 1; j < ss.length; j += 2)
      { let i_to = ss[j], s = ss[j + 1]; while (i < i_to) ans[i++] = s }] *)
Fixpoint each_style (ss : list (Z * option string)) (ans : list Slot)
    (i : nat) : list Slot * nat :=
  match ss with
  | [] => (ans, i)
  | (i_to, s) :: ss' =>
      let (ans', i') := while_below ans i i_to s in each_style ss' ans' i'
  end.

(** [for (let j = 0; j < ss.length; j++)
      { let i_to = ss[j].end, s = ss[j].type; while (i < i_to) ans[i++] = s }] *)
Fixpoint each_token (ss : list Token) (ans : list Slot) (i : nat)
  : list Slot * nat :=
  match ss with
  | [] => (ans, i)
  | t :: ss' =>
      let (ans', i') := while_below ans i (end_ t) (type t) in
      each_token ss' ans' i'
  end.

(** [getEveryCharToken(line)]; [cm] is the editor that
    [line.parent.cm || line.parent.parent.cm || ...] finds. *)
Definition getEveryCharToken (cm : cm_t) (line : Line) : list Slot :=
  let ans := repeat Hole (text_length line) in
  match styles line with
  | Some ss => fst (each_style ss ans 0)
  | None =>
      let ss := getLineTokens cm (lineNo_of cm (handle line)) in
      fst (each_token ss ans 0)
  end.

(** The styles the loop over the tokens writes, one per character, when it
    starts at character [i]. *)
Fixpoint written (i : nat) (tokens : list Token) : list (option string) :=
  match tokens with
  | [] => []
  | t :: rest =>
      let count := Z.to_nat (end_ t - Z.of_nat i) in
      (repeat (type t) count ++ written (i + count) rest)%list
  end.

(** The pairs of the style cache that describe the same runs as
    [tokens]. *)
Definition runs_of (tokens : list Token) : list (Z * option string) :=
  map (fun t => (end_ t, type t)) tokens.

(** [x] is the largest of 0 and the ends of [tokens]. *)
Fixpoint furthest (tokens : list Token) : Z :=
  match tokens with
  | [] => 0
  | t :: rest => Z.max (end_ t) (furthest rest)
  end.

(** A line of [em_line] before it is highlighted, and after. *)
Definition em_plain : Line := mkLine 14 None 0%nat.

Definition em_cached : Line :=
  mkLine 14 (Some (runs_of (getLineTokens em_line 0))) 0%nat.

(** The line with a text two characters longer than its tokens reach. *)
Definition em_long : Line := mkLine 16 None 0%nat.

(** A token list that breaks the tokenizer contract: the tokens overlap. *)
Definition overlapping : cm_t := editor_of [[tok 0 5 "a"; tok 0 9 "b"]].

(** ** Vocabulary of the further properties *)

(** The cursor of the seeker is on a token. *)
Definition on_token (this : TokenSeeker) : Prop :=
  exists c t, this = Some c /\ nth_error (lineTokens c) (i_token c) = Some t.

(** The call takes the branch "try to speed-up seeking":
    [!(precise || !sameLine)]. *)
Definition speeds_up (cm : cm_t) (this : TokenSeeker) (args : SetPosArgs)
  : bool :=
  match args with
  | OnlyCh _ => true
  | LineCh l _ precise =>
      negb precise &&
      same_handle (resolve cm l)
        (match this with Some c => line c | None => None end)
  end.

(** The line argument of the call, if it has one, names a line. *)
Definition names_line (cm : cm_t) (args : SetPosArgs) : Prop :=
  match args with
  | OnlyCh _ => True
  | LineCh l _ _ => resolve cm l <> None
  end.

(** What [expandRange] computes once the pattern is built, for a test [p]
    of the tokens. *)
Definition range_with (p : Token -> bool) (cm : cm_t) (pos : Position.t)
  : option Range.t :=
  let line := Position.line pos in
  let tokens := getLineTokens cm line in
  let iSince :=
    fst (for_break (fun t => end_ t >=? Position.ch pos) tokens 0) in
  if Nat.eqb iSince (List.length tokens) then None
  else
    let to_ch := extend_right p (skipn iSince tokens) (Position.ch pos) in
    let from_ch := extend_left p tokens iSince 0 in
    Some (Range.mk (Position.mk line from_ch) (Position.mk line to_ch)).

(** The line argument of the call is a number that names no line. *)
Definition names_no_line (cm : cm_t) (args : SetPosArgs) : Prop :=
  match args with
  | OnlyCh _ => False
  | LineCh l _ _ => resolve cm l = None
  end.

(** No character of [style] has a meaning of its own in a pattern. *)
Fixpoint plain (style : string) : bool :=
  match style with
  | EmptyString => true
  | String c style' => negb (syntax_char c) && plain style'
  end.

(** A pattern constructor for the examples, which need none: their styles
    are within what the model knows. *)
Definition no_other : RegExpCtor := fun _ => None.

(** The pattern of the style [em]. *)
Definition em_re : string -> bool :=
  search_atoms [Lit "e"; Lit "m"] true true.

(** The seeker on [one_token] after [setPos(0, 0)]. *)
Definition on_first : TokenSeeker :=
  snd (setPos one_token None (LineCh (LineNumber 0) 0 false)).

(** A line whose only token has the type [$]. *)
Definition dollar_line : cm_t := editor_of [[tok 0 4 "$"]].

(** A line with a type that contains [em] without having it as a tag. *)
Definition emphasis_line : cm_t :=
  editor_of [[tok 0 4 "emphasis"; tok 4 10 "em strong"; tok 10 14 "em";
              tok 14 18 "plain"]].

(** The cursor is where a scan from the first token stops for [ch0], as a
    refetching [setPos] at [ch0] leaves it. *)
Definition stopped_at (c : Cursor) (ch0 : Z) : Prop :=
  i_token c = fst (for_break (fun t => end_ t >? ch0) (lineTokens c) 0).

(** The seeker on [em_line] after [setPos(0, 12)], on the last token. *)
Definition em_last : Cursor :=
  seek (Some 0%nat) 0 (getLineTokens em_line 0) 0%nat 12.

(** The cursor of [past_end]. *)
Definition past_end_cursor : Cursor :=
  mkCursor (Some 0%nat) 0 (getLineTokens one_token 0) 1%nat.

(** A seeker on the first token of line 1 of [three_lines]. *)
Definition three_lines_second : Cursor :=
  mkCursor (Some 1%nat) 1 (getLineTokens three_lines 1) 0%nat.

(** The seeker on [overlapping] after [setPos(0, 6)]. *)
Definition overlapping_cursor : Cursor :=
  mkCursor (Some 0%nat) 0 (getLineTokens overlapping 0) 1%nat.

(** * Properties *)

(** ** The forward loop *)

Section Scan.
Variable p : Token -> bool.

Lemma scan_bounds rest i :
  (i <= fst (scan p rest i) <= i + List.length rest)%nat.
Proof.
  revert i; induction rest as [|t rest IH]; intros i; simpl; [lia|].
  destruct (p t); simpl; [lia|]. specialize (IH (S i)). lia.
Qed.

Lemma scan_found rest i j t :
  scan p rest i = (j, Some t) ->
  (i <= j)%nat /\ nth_error rest (j - i) = Some t /\ p t = true.
Proof.
  revert i; induction rest as [|u rest IH]; intros i; simpl; [discriminate|].
  destruct (p u) eqn:E.
  - intros [= <- <-]. rewrite Nat.sub_diag. auto.
  - intros H. apply IH in H as (Hle & Hn & Hp).
    replace (j - i)%nat with (S (j - S i)) by lia. simpl. repeat split; auto; lia.
Qed.

Lemma scan_none rest i j :
  scan p rest i = (j, None) -> j = (i + List.length rest)%nat.
Proof.
  revert i; induction rest as [|u rest IH]; intros i; simpl.
  - intros [= <-]. lia.
  - destruct (p u); [discriminate|]. intros H. apply IH in H. lia.
Qed.

Lemma scan_skipped rest i k t :
  (k < fst (scan p rest i) - i)%nat -> nth_error rest k = Some t ->
  p t = false.
Proof.
  revert i k; induction rest as [|u rest IH]; intros i k; simpl.
  - destruct k; discriminate.
  - destruct (p u) eqn:E; simpl.
    + lia.
    + destruct k as [|k]; simpl.
      * intros _ [= <-]. exact E.
      * intros Hk. apply (IH (S i)). lia.
Qed.

(** The loop stops on a token that satisfies the test, at its index. *)
Lemma for_break_found tokens i j t :
  for_break p tokens i = (j, Some t) ->
  (i <= j)%nat /\ nth_error tokens j = Some t /\ p t = true.
Proof.
  unfold for_break. intros H. apply scan_found in H as (Hle & Hn & Hp).
  rewrite nth_error_skipn in Hn. replace (i + (j - i))%nat with j in Hn by lia.
  auto.
Qed.

(** The loop that never breaks runs to the end of the array. *)
Lemma for_break_none tokens i j :
  for_break p tokens i = (j, None) -> j = Nat.max i (List.length tokens).
Proof.
  unfold for_break. intros H. apply scan_none in H.
  rewrite length_skipn in H. lia.
Qed.

(** Every token the loop passes fails the test. *)
Lemma for_break_skipped tokens i k t :
  (i <= k < fst (for_break p tokens i))%nat -> nth_error tokens k = Some t ->
  p t = false.
Proof.
  unfold for_break. intros Hk Hn.
  apply (scan_skipped (skipn i tokens) i (k - i)); [lia|].
  rewrite nth_error_skipn. replace (i + (k - i))%nat with k by lia. exact Hn.
Qed.

(** Started on a token that satisfies the test, the loop stops at once. *)
Lemma for_break_here tokens i t :
  nth_error tokens i = Some t -> p t = true ->
  for_break p tokens i = (i, Some t).
Proof.
  unfold for_break. intros Hn Hp.
  assert (H : nth_error (skipn i tokens) 0 = Some t)
    by (rewrite nth_error_skipn, Nat.add_0_r; exact Hn).
  destruct (skipn i tokens) as [|u rest]; [discriminate|].
  simpl in H. injection H as ->. simpl. now rewrite Hp.
Qed.

(** A token at the index the loop stopped at is the one it broke on. *)
Lemma for_break_at tokens i t :
  nth_error tokens (fst (for_break p tokens i)) = Some t ->
  (i <= List.length tokens)%nat ->
  for_break p tokens i = (fst (for_break p tokens i), Some t).
Proof.
  intros Hn Hi. destruct (for_break p tokens i) as [j [u|]] eqn:E; simpl in *.
  - apply for_break_found in E as (_ & Hu & _). congruence.
  - apply for_break_none in E.
    assert (fst (j, @None Token) < List.length tokens)%nat
      by (apply nth_error_Some; simpl; congruence).
    simpl in *. lia.
Qed.

(** Skipping tokens that fail the test does not change where the loop
    stops. *)
Lemma for_break_resume tokens i j :
  (i <= j <= List.length tokens)%nat ->
  (forall k t, (i <= k < j)%nat -> nth_error tokens k = Some t -> p t = false) ->
  for_break p tokens i = for_break p tokens j.
Proof.
  intros Hij. induction j as [|j IH]; intros Hskip.
  - replace i with 0%nat by lia. reflexivity.
  - destruct (Nat.eq_dec i (S j)) as [->|Hne]; [reflexivity|].
    rewrite IH by (try lia; intros k t Hk; apply Hskip; lia).
    unfold for_break.
    destruct (nth_error tokens j) as [u|] eqn:Hu.
    + assert (Hp : p u = false) by (apply (Hskip j); [lia|exact Hu]).
      assert (Hs : skipn j tokens = u :: skipn (S j) tokens).
      { clear -Hu. revert tokens Hu. induction j as [|j IHj]; intros [|a l]; simpl;
          try discriminate.
        - now intros [= ->].
        - intros H. now apply IHj. }
      rewrite Hs. simpl. now rewrite Hp.
    + apply nth_error_None in Hu. lia.
Qed.

End Scan.

(** ** The tokenizer contract *)

(** Boolean comparisons on [Z], in hypotheses and goal, as propositions. *)
Ltac zbool :=
  repeat match goal with
  | H : (_ >? _) = _ |- _ => rewrite Z.gtb_ltb in H
  | H : (_ >=? _) = _ |- _ => rewrite Z.geb_leb in H
  | H : (_ <? _) = true |- _ => apply Z.ltb_lt in H
  | H : (_ <? _) = false |- _ => apply Z.ltb_ge in H
  | H : (_ <=? _) = true |- _ => apply Z.leb_le in H
  | H : (_ <=? _) = false |- _ => apply Z.leb_gt in H
  | H : (_ =? _) = true |- _ => apply Z.eqb_eq in H
  | H : (_ =? _) = false |- _ => apply Z.eqb_neq in H
  | |- (_ >? _) = _ => rewrite Z.gtb_ltb
  | |- (_ >=? _) = _ => rewrite Z.geb_leb
  | |- (_ <? _) = true => apply Z.ltb_lt
  | |- (_ <? _) = false => apply Z.ltb_ge
  | |- (_ <=? _) = true => apply Z.leb_le
  | |- (_ <=? _) = false => apply Z.leb_gt
  end.

Lemma covers_cons a t rest b :
  covers a (t :: rest) b = true ->
  start t = a /\ start t <= end_ t /\ covers (end_ t) rest b = true.
Proof.
  simpl. rewrite !andb_true_iff, Z.eqb_eq, Z.leb_le. tauto.
Qed.

(** Every token of a covering list lies between the two ends. *)
Lemma covers_within a tokens b j t :
  covers a tokens b = true -> nth_error tokens j = Some t ->
  a <= start t /\ start t <= end_ t /\ end_ t <= b.
Proof.
  revert a j t; induction tokens as [|u rest IH]; intros a j t Hc Hn.
  - destruct j; discriminate.
  - apply covers_cons in Hc as (Hs & Hle & Hc).
    destruct j as [|j]; simpl in Hn.
    + injection Hn as <-. destruct rest as [|v rest'].
      * simpl in Hc. apply Z.eqb_eq in Hc. lia.
      * destruct (IH _ 0%nat v Hc eq_refl). lia.
    + destruct (IH _ j t Hc Hn). lia.
Qed.

(** Tokens come in left-to-right order: an earlier one ends where a later
    one starts, or before. *)
Lemma covers_ordered a tokens b k j tk tj :
  covers a tokens b = true -> (k < j)%nat ->
  nth_error tokens k = Some tk -> nth_error tokens j = Some tj ->
  end_ tk <= start tj.
Proof.
  revert a k j tk tj; induction tokens as [|u rest IH];
    intros a k j tk tj Hc Hkj Hk Hj.
  - destruct k; discriminate.
  - apply covers_cons in Hc as (Hs & Hle & Hc).
    destruct j as [|j]; [lia|]. simpl in Hj.
    destruct k as [|k]; simpl in Hk.
    + injection Hk as <-. now destruct (covers_within _ _ _ _ _ Hc Hj).
    + apply (IH _ k j tk tj Hc); auto; lia.
Qed.

(** On a covering list that is not empty the scan of [setPos] for a [ch]
    before the end stops on a token. *)
Lemma scan_covers_found a rest b ch i :
  covers a rest b = true -> rest <> [] -> ch < b ->
  exists j t, scan (fun t => end_ t >? ch) rest i = (j, Some t).
Proof.
  revert a i; induction rest as [|u rest IH]; intros a i Hc Hne Hch;
    [congruence|].
  apply covers_cons in Hc as (Hs & Hle & Hc). simpl.
  destruct (end_ u >? ch) eqn:E; [eauto|].
  destruct rest as [|v rest'].
  - simpl in Hc. zbool. lia.
  - apply (IH _ (S i) Hc); [discriminate | exact Hch].
Qed.

(** The token that scan stops on contains [ch]. *)
Lemma scan_covers_contains a rest b ch i j t :
  covers a rest b = true -> a <= ch ->
  scan (fun t => end_ t >? ch) rest i = (j, Some t) -> contains t ch.
Proof.
  revert a i; induction rest as [|u rest IH]; intros a i Hc Ha; simpl;
    [discriminate|].
  apply covers_cons in Hc as (Hs & Hle & Hc).
  destruct (end_ u >? ch) eqn:E.
  - intros [= <- <-]. unfold contains. zbool. lia.
  - apply (IH _ _ Hc). zbool. exact E.
Qed.

(** ** setPos *)

Lemma same_handle_refl a : same_handle a a = true.
Proof. destruct a; simpl; [apply Nat.eqb_refl | reflexivity]. Qed.

Lemma same_handle_eq a b : same_handle a b = true -> a = b.
Proof.
  destruct a, b; simpl; try discriminate; [|reflexivity].
  intros H. apply Nat.eqb_eq in H. now subst.
Qed.

(** A seeker with a current cache tracks a line. *)
Lemma current_inv cm c :
  current cm c ->
  exists h, line c = Some h /\ lineNo c = lineNo_of cm h /\
            lineTokens c = getLineTokens cm (lineNo c).
Proof.
  unfold current. destruct (line c) as [h|]; [|contradiction].
  intros [H1 H2]. eauto.
Qed.

Section SetPos.
Variable cm : cm_t.

(** [setPos(ch)] is [setPos(line, ch)] for the tracked line. *)
Lemma setPos_OnlyCh c l ch :
  resolve cm l = line c ->
  setPos cm (Some c) (LineCh l ch false) = setPos cm (Some c) (OnlyCh ch).
Proof.
  intros H. cbn [setPos]. rewrite H, same_handle_refl. reflexivity.
Qed.

(** [setPos(line, ch, true)] on a seeker whose cache is current. *)
Lemma setPos_precise_current c l ch :
  current cm c -> resolve cm l = line c ->
  setPos cm (Some c) (LineCh l ch true) =
  (Return tt, Some (seek (line c) (lineNo c) (lineTokens c) 0 ch)).
Proof.
  intros Hcur Hl. destruct (current_inv cm c Hcur) as (h & Eh & Hno & Htk).
  cbn [setPos orb]. rewrite Hl, Eh. unfold refetch.
  now rewrite <- Hno, <- Htk.
Qed.

(** On a line that obeys the tokenizer contract the refetching branch
    leaves the cursor on the token that contains [ch]. *)
Lemma refetch_contains h ch len :
  covers 0 (getLineTokens cm (lineNo_of cm h)) len = true ->
  0 <= ch < len ->
  let c := refetch cm h ch in
  exists t, nth_error (lineTokens c) (i_token c) = Some t /\ contains t ch.
Proof.
  intros Hc Hch. simpl.
  set (tokens := getLineTokens cm (lineNo_of cm h)) in *.
  assert (Hne : tokens <> []).
  { intros E. rewrite E in Hc. unfold covers in Hc. zbool. lia. }
  destruct (scan_covers_found 0 tokens len ch 0%nat Hc Hne) as (j & t & E);
    [lia|].
  unfold for_break. simpl. rewrite E. simpl. exists t. split.
  - apply (for_break_found _ tokens 0%nat j t E).
  - apply (scan_covers_contains 0 tokens len ch 0%nat j t Hc); [lia|exact E].
Qed.

(** With the cursor on a token of a line that obeys the contract, the
    speed-up branch stops where a scan from the first token stops. *)
Lemma speed_up_seek c ch len :
  covers 0 (lineTokens c) len = true ->
  (i_token c < List.length (lineTokens c))%nat ->
  speed_up c ch =
  (Return tt, Some (seek (line c) (lineNo c) (lineTokens c) 0 ch)).
Proof.
  intros Hc Hi. unfold speed_up.
  destruct (nth_error (lineTokens c) (i_token c)) as [token|] eqn:Hn.
  2:{ apply nth_error_None in Hn. lia. }
  destruct (start token >? ch) eqn:E; [reflexivity|].
  unfold seek. do 4 f_equal.
  symmetry. apply for_break_resume; [lia|].
  intros k t Hk Hkn.
  assert (end_ t <= start token)
    by (apply (covers_ordered 0 (lineTokens c) len k (i_token c)); auto; lia).
  zbool. lia.
Qed.

(** The index a scan from the first token leaves is a token index, when
    [ch] is before the end of the line. *)
Lemma seek_in_range l no tokens ch len :
  covers 0 tokens len = true -> tokens <> [] -> ch < len ->
  (i_token (seek l no tokens 0 ch) < List.length tokens)%nat.
Proof.
  intros Hc Hne Hch.
  destruct (scan_covers_found 0 tokens len ch 0%nat Hc Hne Hch) as (j & t & E).
  unfold seek, for_break. simpl. rewrite E. simpl.
  apply (for_break_found _ tokens 0%nat j t) in E as (_ & Hn & _).
  apply nth_error_Some. congruence.
Qed.

End SetPos.

(** *** The speed-up branch against the refetching branch *)

(** C1 (counterexample). A seeker that tracks line 0, whose tokens were
    cached before the line was edited: [setPos(0, 1)] keeps the cached
    tokens, [setPos(0, 1, true)] refetches them, and the two seekers
    differ. *)
Lemma setPos_fast_differs_on_stale_cache :
  reachable stale /\
  (exists c, stale = Some c /\ line c = getLineHandle edited 0) /\
  non_decreasing [1] = true /\
  map snd (setPos_each edited stale (LineNumber 0) false [1]) <>
  map snd (setPos_each edited stale (LineNumber 0) true [1]).
Proof.
  split; [apply reach_setPos, reach_new|].
  split; [eexists; split; reflexivity|].
  split; [reflexivity|].
  intros H. vm_compute in H. discriminate H.
Qed.

(** C1 (amended). On a seeker whose cached line number and tokens are
    those the editor has, whose line obeys the tokenizer contract and
    whose cursor is on a token, a sequence of [setPos] calls on the tracked
    line with [precise = false] and non-decreasing [ch] arguments, all
    before the end of the line, completes and leaves after each call the
    seeker that the same calls with [precise = true] leave. *)
Theorem setPos_fast_as_precise cm c l len chs :
  current cm c ->
  covers 0 (lineTokens c) len = true ->
  (i_token c < List.length (lineTokens c))%nat ->
  resolve cm l = line c ->
  Forall (fun ch => ch < len) chs ->
  non_decreasing chs = true ->
  setPos_each cm (Some c) l false chs = setPos_each cm (Some c) l true chs.
Proof.
  intros Hcur Hcov Hi Hl Hlen Hmono. revert c Hcur Hcov Hi Hl Hmono.
  induction Hlen as [|ch chs Hch Hlen IH]; intros c Hcur Hcov Hi Hl Hmono;
    [reflexivity|].
  assert (Hfast : setPos cm (Some c) (LineCh l ch false) =
                  (Return tt, Some (seek (line c) (lineNo c) (lineTokens c) 0 ch))).
  { rewrite (setPos_OnlyCh cm c l ch Hl). cbn [setPos].
    now apply speed_up_seek with len. }
  assert (Hprec : setPos cm (Some c) (LineCh l ch true) =
                  (Return tt, Some (seek (line c) (lineNo c) (lineTokens c) 0 ch)))
    by now apply setPos_precise_current.
  cbn [setPos_each]. rewrite Hfast, Hprec. f_equal. cbn [snd].
  apply IH; cbn [seek line lineNo lineTokens]; auto.
  - apply seek_in_range with len; auto.
    intros E. rewrite E in Hi. simpl in Hi. lia.
  - destruct chs; [reflexivity|]. simpl in Hmono.
    apply andb_true_iff in Hmono. tauto.
Qed.

(** The amended statement at a seeker on the first token of the line
    [em_line]. *)
Lemma setPos_fast_as_precise_witness :
  setPos_each em_line (Some em_cursor) (LineNumber 0) false [2; 5; 5; 12] =
  setPos_each em_line (Some em_cursor) (LineNumber 0) true [2; 5; 5; 12].
Proof.
  apply (setPos_fast_as_precise em_line _ (LineNumber 0) 14).
  - split; reflexivity.
  - reflexivity.
  - simpl. lia.
  - reflexivity.
  - repeat constructor.
  - reflexivity.
Defined.

(** When the cursor is on a token of a line that obeys the contract, or
    the call refetches, [setPos] completes with the cursor on the token
    that contains [ch]. *)
Lemma setPos_on_token_contains cm c args ch len :
  (args = OnlyCh ch \/ exists l p, args = LineCh l ch p) ->
  (forall l p, args = LineCh l ch p -> current cm c /\ resolve cm l = line c) ->
  covers 0 (lineTokens c) len = true ->
  (i_token c < List.length (lineTokens c))%nat ->
  0 <= ch < len ->
  exists c' t,
    setPos cm (Some c) args = (Return tt, Some c') /\
    nth_error (lineTokens c') (i_token c') = Some t /\ contains t ch.
Proof.
  intros Hargs Hsame Hcov Hi Hch.
  assert (Hne : lineTokens c <> [])
    by (intros E; rewrite E in Hi; simpl in Hi; lia).
  assert (Hseek : exists t,
    nth_error (lineTokens c)
      (i_token (seek (line c) (lineNo c) (lineTokens c) 0 ch)) = Some t /\
    contains t ch).
  { destruct (scan_covers_found 0 (lineTokens c) len ch 0%nat Hcov Hne)
      as (j & t & E); [lia|].
    exists t. unfold seek, for_break. cbn [i_token skipn]. rewrite E. split.
    - apply (for_break_found _ (lineTokens c) 0%nat j t E).
    - apply (scan_covers_contains 0 (lineTokens c) len ch 0%nat j t Hcov);
        [lia|exact E]. }
  destruct Hseek as (t & Hn & Hin).
  exists (seek (line c) (lineNo c) (lineTokens c) 0 ch), t.
  split; [|split; assumption].
  destruct Hargs as [-> | (l & p & ->)].
  - simpl. now apply speed_up_seek with len.
  - destruct (Hsame l p eq_refl) as (Hcur & Hl). destruct p.
    + now apply setPos_precise_current.
    + rewrite (setPos_OnlyCh cm c l ch Hl). cbn [setPos].
      now apply speed_up_seek with len.
Qed.

(** C2. The line [one_token] obeys the tokenizer contract and 1 is an
    offset of it, but on the seeker that [setPos(0, 3)] left past the end
    of the line [setPos(1)] throws, and the cursor stays where no token
    is. *)
Theorem setPos_throws_past_end :
  covers 0 (getLineTokens one_token 0) 3 = true /\
  reachable past_end /\
  setPos one_token past_end (OnlyCh 1) = (Throw, past_end) /\
  exists c, past_end = Some c /\
            lineTokens c = getLineTokens one_token 0 /\
            nth_error (lineTokens c) (i_token c) = None.
Proof.
  split; [reflexivity|].
  split; [apply reach_setPos, reach_new|].
  split; [reflexivity|].
  eexists. split; [reflexivity|]. split; reflexivity.
Qed.

(** *** Repeating a call *)

Section Repeat.
Variable ch : Z.
Let p := fun t : Token => end_ t >? ch.

(** A cursor where the scan from the first token stops for [ch] is left
    alone by the speed-up branch for the same [ch]. *)
Lemma speed_up_from_start l no tokens :
  let c := mkCursor l no tokens (fst (for_break p tokens 0)) in
  snd (speed_up c ch) = Some c.
Proof.
  intros c. unfold speed_up. cbn [lineTokens i_token line lineNo c].
  destruct (nth_error tokens (fst (for_break p tokens 0))) as [t1|] eqn:Hn;
    [|reflexivity].
  pose proof (for_break_at p tokens 0%nat t1 Hn (Nat.le_0_l _)) as E.
  destruct (for_break_found p tokens _ _ _ E) as (_ & _ & Hp).
  cbn [snd]. unfold seek, c. do 2 f_equal.
  destruct (start t1 >? ch); [reflexivity|].
  fold p. now rewrite (for_break_here p tokens _ t1 Hn Hp).
Qed.

(** So is a cursor on a token that contains [ch]. *)
Lemma speed_up_on_token c t :
  nth_error (lineTokens c) (i_token c) = Some t -> contains t ch ->
  snd (speed_up c ch) = Some c.
Proof.
  intros Hn [Hs He]. unfold speed_up. rewrite Hn.
  replace (start t >? ch) with false by (symmetry; zbool; lia).
  cbn [snd]. unfold seek. fold p.
  rewrite (for_break_here p (lineTokens c) _ t Hn) by (unfold p; zbool; lia).
  now destruct c.
Qed.

(** What the speed-up branch leaves of a settled cursor: the cursor as it
    was, when it throws; else the index a scan from the first token stops
    at, or the index of a token that contains [ch]. *)
Lemma speed_up_result c :
  settled c ->
  exists i,
    snd (speed_up c ch) = Some (mkCursor (line c) (lineNo c) (lineTokens c) i) /\
    ((i = i_token c /\ nth_error (lineTokens c) i = None) \/
     i = fst (for_break p (lineTokens c) 0) \/
     (i = i_token c /\
      exists t, nth_error (lineTokens c) i = Some t /\ contains t ch)).
Proof.
  intros [ch0 Hset]. unfold speed_up.
  destruct (nth_error (lineTokens c) (i_token c)) as [token|] eqn:Hn.
  2:{ exists (i_token c). split; [now destruct c | now left]. }
  destruct (start token >? ch) eqn:Es.
  { eexists. split; [reflexivity | right; left; reflexivity]. }
  set (p0 := fun t : Token => end_ t >? ch0) in *.
  assert (E0 : for_break p0 (lineTokens c) 0 = (i_token c, Some token)).
  { rewrite Hset in Hn |- *. apply for_break_at; [exact Hn | lia]. }
  destruct (for_break_found p0 _ _ _ _ E0) as (_ & _ & Hp0).
  assert (Hlt : (i_token c < List.length (lineTokens c))%nat)
    by (apply nth_error_Some; congruence).
  destruct (Z_lt_le_dec ch ch0) as [Hlt0 | Hge0].
  - (* the token the cursor is on still ends after [ch] *)
    exists (i_token c). cbn [snd]. unfold seek. fold p.
    rewrite (for_break_here p (lineTokens c) _ token Hn)
      by (unfold p, p0 in *; zbool; lia).
    split; [reflexivity|]. right; right. split; [reflexivity|].
    exists token. split; [exact Hn|]. unfold contains, p0 in *. zbool. lia.
  - (* the tokens before the cursor end at or before [ch] *)
    eexists. split; [reflexivity|]. right; left. fold p.
    symmetry. f_equal. apply for_break_resume; [lia|].
    intros k t Hk Hkn.
    assert (Hsk : p0 t = false).
    { apply (for_break_skipped p0 (lineTokens c) 0%nat k); [|exact Hkn].
      rewrite E0. simpl. lia. }
    unfold p, p0 in *. zbool. lia.
Qed.

(** A second run of the speed-up branch for the same [ch] changes
    nothing. *)
Lemma speed_up_twice c c1 :
  settled c -> snd (speed_up c ch) = Some c1 ->
  snd (speed_up c1 ch) = Some c1.
Proof.
  intros Hset H1. destruct (speed_up_result c Hset) as (i & Hi & Hcase).
  rewrite Hi in H1. injection H1 as <-.
  destruct Hcase as [(-> & Hn) | [-> | (-> & t & Hn & Hin)]].
  - unfold speed_up. cbn [lineTokens i_token]. now rewrite Hn.
  - apply speed_up_from_start.
  - now apply speed_up_on_token with t.
Qed.

Lemma speed_up_settled c c1 :
  settled c -> snd (speed_up c ch) = Some c1 -> settled c1.
Proof.
  intros Hset H1. destruct (speed_up_result c Hset) as (i & Hi & Hcase).
  rewrite Hi in H1. injection H1 as <-.
  destruct Hcase as [(-> & Hn) | [-> | (-> & t & Hn & Hin)]].
  - exact Hset.
  - exists ch. reflexivity.
  - exact Hset.
Qed.

End Repeat.

Lemma refetch_settled cm h ch : settled (refetch cm h ch).
Proof. exists ch. reflexivity. Qed.

Lemma forget_line_settled c c1 :
  settled c -> forget_line (Some c) = Some c1 -> settled c1.
Proof. intros [ch0 H] [= <-]. exists ch0. exact H. Qed.

(** Every seeker a program can build is settled. *)
Lemma reachable_settled this :
  reachable this -> forall c, this = Some c -> settled c.
Proof.
  induction 1 as [|cm this args Hr IH]; intros c1 H1; [discriminate|].
  destruct args as [ch | l ch precise]; cbn [setPos] in H1.
  - destruct this as [c|]; [|discriminate].
    apply (speed_up_settled ch c c1); auto.
  - destruct (precise || negb (same_handle (resolve cm l) _)).
    + destruct (resolve cm l) as [h|]; cbn [snd] in H1.
      * injection H1 as <-. apply refetch_settled.
      * destruct this as [c|]; [|discriminate].
        apply (forget_line_settled c c1); auto.
    + destruct this as [c|]; [|discriminate].
      apply (speed_up_settled ch c c1); auto.
Qed.

(** C9. On [one_token], after [setPos(0, 0)], the call [setPos(5, 3)]
    names a line that does not exist: it writes [undefined] into [line]
    and throws. The same call again finds [line] unchanged by its
    argument, takes the speed-up branch on the cached tokens and moves
    [i_token] from 0 to 1: the second call does not leave the seeker as the
    first left it. *)
Theorem setPos_not_idempotent_after_throw :
  reachable on_first /\
  setPos one_token on_first (LineCh (LineNumber 5) 3 false) =
    (Throw, Some (mkCursor None 0 (getLineTokens one_token 0) 0%nat)) /\
  setPos one_token
    (snd (setPos one_token on_first (LineCh (LineNumber 5) 3 false)))
    (LineCh (LineNumber 5) 3 false) =
    (Return tt, Some (mkCursor None 0 (getLineTokens one_token 0) 1%nat)) /\
  snd (setPos one_token
         (snd (setPos one_token on_first (LineCh (LineNumber 5) 3 false)))
         (LineCh (LineNumber 5) 3 false)) <>
  snd (setPos one_token on_first (LineCh (LineNumber 5) 3 false)).
Proof.
  split; [apply reach_setPos, reach_new|].
  split; [reflexivity|]. split; [reflexivity|].
  intros H. vm_compute in H. discriminate H.
Qed.

(** X20. [setPos] is idempotent when its line argument, if it has one,
    names a line: on every seeker a program can build, a second call with
    the same arguments, the editor unchanged, leaves [line], [lineNo],
    [lineTokens] and [i_token] as the first call left them. *)
Theorem setPos_idempotent cm this args :
  reachable this -> names_line cm args ->
  snd (setPos cm (snd (setPos cm this args)) args) =
  snd (setPos cm this args).
Proof.
  intros Hr Hname.
  destruct args as [ch | l ch precise].
  - destruct this as [c|]; [|reflexivity]. simpl.
    destruct (speed_up c ch) as [r [c1|]] eqn:E.
    + simpl. apply (speed_up_twice ch c c1).
      * now apply (reachable_settled (Some c)).
      * now rewrite E.
    + unfold speed_up in E.
      destruct (nth_error (lineTokens c) (i_token c)); discriminate.
  - cbn [names_line] in Hname.
    destruct (resolve cm l) as [h|] eqn:El; [|congruence].
    assert (Hrefetch :
      snd (setPos cm (Some (refetch cm h ch)) (LineCh l ch precise)) =
      Some (refetch cm h ch)).
    { cbn [setPos]. rewrite El. cbn [refetch seek line same_handle].
      rewrite Nat.eqb_refl. destruct precise; cbn [orb negb snd];
        [reflexivity|].
      apply (speed_up_from_start ch). }
    assert (Hfirst : setPos cm this (LineCh l ch precise) =
      if precise || negb (same_handle (Some h)
                            (match this with Some c => line c | None => None end))
      then (Return tt, Some (refetch cm h ch))
      else match this with
           | None => (Throw, None)
           | Some c => speed_up c ch
           end)
      by (cbn [setPos]; rewrite El; reflexivity).
    rewrite Hfirst. clear Hfirst.
    destruct (precise || negb (same_handle (Some h) _)) eqn:Eb.
    + cbn [snd]. exact Hrefetch.
    + apply orb_false_iff in Eb as [-> Eh]. apply negb_false_iff in Eh.
      destruct this as [c|]; [|discriminate].
      assert (Hset : settled c) by now apply (reachable_settled (Some c)).
      apply same_handle_eq in Eh.
      destruct (speed_up_result ch c Hset) as (i & Hi & _).
      rewrite Hi. cbn [setPos line]. rewrite El, <- Eh.
      cbn [same_handle]. rewrite Nat.eqb_refl. cbn [orb negb].
      rewrite Eh. apply (speed_up_twice ch c); auto.
Qed.

(** The idempotence at [setPos(0, 12)] on the new seeker of [em_line],
    where each call returns, and at [setPos(1)] on [past_end], where each
    call throws. *)
Lemma setPos_idempotent_witness :
  snd (setPos em_line
         (snd (setPos em_line None (LineCh (LineNumber 0) 12 false)))
         (LineCh (LineNumber 0) 12 false)) =
  snd (setPos em_line None (LineCh (LineNumber 0) 12 false)) /\
  snd (setPos one_token (snd (setPos one_token past_end (OnlyCh 1)))
         (OnlyCh 1)) =
  snd (setPos one_token past_end (OnlyCh 1)).
Proof.
  split.
  - apply (setPos_idempotent em_line None); [exact reach_new|].
    discriminate.
  - apply (setPos_idempotent one_token past_end); [|exact I].
    exact (reach_setPos one_token None _ reach_new).
Defined.

(** ** findNext *)

Section FirstMatch.
Variable p : Token -> bool.
Variable tokens : list Token.

(** The loop stops on the first token, from its start on, that satisfies
    the test. *)
Lemma for_break_first i j t :
  for_break p tokens i = (j, Some t) <->
  (i <= j)%nat /\ nth_error tokens j = Some t /\ p t = true /\
  forall k u, (i <= k < j)%nat -> nth_error tokens k = Some u -> p u = false.
Proof.
  split.
  - intros E. destruct (for_break_found p tokens i j t E) as (Hle & Hn & Hp).
    repeat split; auto. intros k u Hk. apply (for_break_skipped p tokens i).
    now rewrite E.
  - intros (Hle & Hn & Hp & Hskip).
    assert (j < List.length tokens)%nat by (apply nth_error_Some; congruence).
    rewrite (for_break_resume p tokens i j) by (auto; lia).
    now apply for_break_here.
Qed.

(** It runs to the end exactly when no token from its start on satisfies
    the test. *)
Lemma for_break_nothing i :
  snd (for_break p tokens i) = None <->
  forall j u, (i <= j)%nat -> nth_error tokens j = Some u -> p u = false.
Proof.
  split.
  - intros E j u Hj Hn. destruct (for_break p tokens i) as [k o] eqn:Ek.
    simpl in E. subst o. pose proof (for_break_none p tokens i k Ek).
    assert (j < List.length tokens)%nat by (apply nth_error_Some; congruence).
    apply (for_break_skipped p tokens i j); [|exact Hn]. rewrite Ek. simpl. lia.
  - intros Hall. destruct (for_break p tokens i) as [k [t|]] eqn:Ek;
      [|reflexivity].
    destruct (for_break_found p tokens i k t Ek) as (Hle & Hn & Hp).
    rewrite (Hall k t Hle Hn) in Hp. discriminate.
Qed.

End FirstMatch.

(** The tokens at or after the index where [since.ch] sends the search
    are those that follow a token starting at or after [since.ch]. *)
Lemma skip_before_le since_ch (tokens : list Token) from j t :
  nth_error tokens j = Some t ->
  (skip_before since_ch tokens from <= j)%nat <->
  exists k u, (from <= k <= j)%nat /\ nth_error tokens k = Some u /\
              since_ch <= start u.
Proof.
  intros Hn. unfold skip_before.
  set (p := fun t : Token => start t >=? since_ch).
  assert (Hj : (j < List.length tokens)%nat)
    by (apply nth_error_Some; congruence).
  split.
  - intros Hle. destruct (for_break p tokens from) as [s [u|]] eqn:E.
    + destruct (for_break_found p tokens from s u E) as (Hfs & Hu & Hp).
      exists s, u. simpl in Hle. repeat split; auto. unfold p in Hp. zbool. lia.
    + apply for_break_none in E. simpl in Hle. lia.
  - intros (k & u & Hk & Hu & Hs).
    destruct (Nat.le_gt_cases (fst (for_break p tokens from)) j) as [|Hgt];
      [assumption|].
    assert (Hf : p u = false)
      by (apply (for_break_skipped p tokens from k); [lia | exact Hu]).
    unfold p in Hf. zbool. lia.
Qed.

Section Visit.
Variable cm : cm_t.
Variable condition : Condition.
Variable since : option Position.t.

(** The index at which the callback starts on the [n]-th line. *)
Let first_of (n : Z) : nat :=
  match since with
  | Some q =>
      if visited cm n =? Position.line q
      then skip_before (Position.ch q) (getLineTokens cm (visited cm n)) 0
      else 0%nat
  | None => 0%nat
  end.

Lemma first_of_le n j t :
  nth_error (getLineTokens cm (visited cm n)) j = Some t ->
  (first_of n <= j)%nat <->
  since_allows since (visited cm n) (getLineTokens cm (visited cm n)) 0 j.
Proof.
  intros Hn. unfold first_of, since_allows. destruct since as [q|].
  - destruct (visited cm n =? Position.line q) eqn:E; zbool.
    + rewrite (skip_before_le _ _ _ _ _ Hn). split; [auto|].
      intros H. apply H. auto.
    + split; [intros _ Heq; congruence | lia].
  - split; [auto | lia].
Qed.

Lemma visit_unfold n v :
  visit cm condition since (getLine cm n) v =
  match for_break (holds condition) (getLineTokens cm (visited cm n))
          (first_of n) with
  | (i, Some t) =>
      (true, mkVars (visited cm n) (getLineTokens cm (visited cm n)) (Some t)
               i (fetched v ++ [visited cm n]))
  | (i, None) =>
      (false, mkVars (visited cm n) (getLineTokens cm (visited cm n))
                (v_token v) i (fetched v ++ [visited cm n]))
  end.
Proof.
  unfold visit, first_of, visited. destruct since as [q|]; reflexivity.
Qed.

(** On a line with a match the callback stops the iteration with the
    first match in hand. *)
Lemma visit_first_match n i t v :
  first_match cm condition since n i t ->
  visit cm condition since (getLine cm n) v =
  (true, mkVars (visited cm n) (getLineTokens cm (visited cm n)) (Some t) i
           (fetched v ++ [visited cm n])).
Proof.
  intros (Hn & Hp & Hal & Hfirst). rewrite visit_unfold.
  assert (E : for_break (holds condition) (getLineTokens cm (visited cm n))
                (first_of n) = (i, Some t)).
  { apply for_break_first. repeat split; auto.
    - now apply (first_of_le n i t).
    - intros k u Hk Hu. apply (Hfirst k u); [lia | exact Hu |].
      apply (first_of_le n k u Hu). lia. }
  now rewrite E.
Qed.

(** On a line without a match it lets the iteration go on, the token
    variable untouched. *)
Lemma visit_no_match n v :
  no_match cm condition since n <->
  exists i,
    visit cm condition since (getLine cm n) v =
    (false, mkVars (visited cm n) (getLineTokens cm (visited cm n))
              (v_token v) i (fetched v ++ [visited cm n])).
Proof.
  rewrite visit_unfold.
  destruct (for_break (holds condition) (getLineTokens cm (visited cm n))
              (first_of n)) as [i [t|]] eqn:E.
  - split; [|intros (k & [=])].
    intros Hno. apply for_break_first in E as (Hle & Hn & Hp & _).
    rewrite (Hno i t Hn) in Hp; [discriminate|].
    now apply (first_of_le n i t).
  - split; [eauto|]. intros _ j t Hn Hal.
    assert (Hnone : snd (for_break (holds condition)
                      (getLineTokens cm (visited cm n)) (first_of n)) = None)
      by now rewrite E.
    apply (proj1 (for_break_nothing _ _ _) Hnone j t); auto.
    now apply (first_of_le n j t).
Qed.

(** A stopped callback has a token in hand. *)
Lemma visit_stop n v v' :
  visit cm condition since (getLine cm n) v = (true, v') ->
  v_token v' <> None.
Proof.
  rewrite visit_unfold.
  destruct (for_break (holds condition) (getLineTokens cm (visited cm n))
              (first_of n)) as [i [t|]]; intros [= <-]; discriminate.
Qed.

Lemma lines_between_cons a b :
  a <= b -> lines_between a b = a :: lines_between (a + 1) b.
Proof.
  intros H. unfold lines_between.
  replace (Z.to_nat (b - a + 1)) with (S (Z.to_nat (b - (a + 1) + 1))) by lia.
  cbn [seq map]. f_equal; [lia|].
  rewrite <- seq_shift, map_map. apply map_ext. intros k. lia.
Qed.

(** The iteration goes through the lines without a match and stops on the
    first line with one; it asks for the tokens of these lines, in order,
    and of no other. *)
Lemma eachLine_iter_first_match m i t count n0 v :
  (forall n, n0 <= n < m -> no_match cm condition since n) ->
  first_match cm condition since m i t ->
  n0 <= m < n0 + Z.of_nat count ->
  eachLine_iter cm (visit cm condition since) count n0 v =
  mkVars (visited cm m) (getLineTokens cm (visited cm m)) (Some t) i
    (fetched v ++ map (visited cm) (lines_between n0 m)).
Proof.
  intros Hno Hm. revert n0 v Hno.
  induction count as [|count IH]; intros n0 v Hno Hrange; [lia|].
  cbn [eachLine_iter].
  destruct (Z.eq_dec n0 m) as [->|Hne].
  - rewrite (visit_first_match m i t v Hm).
    rewrite lines_between_cons by lia.
    unfold lines_between at 1.
    replace (Z.to_nat (m - (m + 1) + 1)) with 0%nat by lia. reflexivity.
  - destruct (proj1 (visit_no_match n0 v) (Hno n0 ltac:(lia))) as (k & ->).
    rewrite IH by (try lia; intros n Hn; apply Hno; lia).
    cbn [fetched]. rewrite (lines_between_cons n0 m) by lia.
    cbn [map]. now rewrite <- app_assoc.
Qed.

(** The iteration ends without a token exactly when no line of its range
    has a match. *)
Lemma eachLine_iter_nothing count n0 v :
  v_token v = None ->
  v_token (eachLine_iter cm (visit cm condition since) count n0 v) = None <->
  forall n, n0 <= n < n0 + Z.of_nat count -> no_match cm condition since n.
Proof.
  revert n0 v. induction count as [|count IH]; intros n0 v Hv.
  - simpl. split; [intros _ n Hn; lia | auto].
  - cbn [eachLine_iter].
    destruct (visit cm condition since (getLine cm n0) v)
      as [[|] v'] eqn:E.
    + split.
      * intros H. now apply visit_stop in E.
      * intros Hall. destruct (proj1 (visit_no_match n0 v) (Hall n0 ltac:(lia)))
          as (k & Hk). congruence.
    + assert (Hn0 : no_match cm condition since n0).
      { apply (visit_no_match n0 v). rewrite visit_unfold in E |- *.
        destruct (for_break (holds condition) (getLineTokens cm (visited cm n0))
                    (first_of n0)) as [k [t|]]; [discriminate|eauto]. }
      destruct (proj1 (visit_no_match n0 v) Hn0) as (k & Hk).
      assert (Hv' : v_token v' = None) by (rewrite Hk in E; now injection E as <-).
      rewrite (IH (n0 + 1) v' Hv'). split.
      * intros H n Hn. destruct (Z.eq_dec n n0) as [->|]; [exact Hn0|].
        apply H. lia.
      * intros H n Hn. apply H. lia.
Qed.

End Visit.

Section FindNext.
Variable cm : cm_t.
Variable c : Cursor.
Variable condition : Condition.

(** The tokens of the tracked line at or after the index where the scan
    begins are those of the searched range. *)
Lemma i_token_start_le varg since j t :
  nth_error (lineTokens c) j = Some t ->
  (i_token_start c varg since <= j)%nat <-> searched_here c varg since j.
Proof.
  intros Hn. unfold i_token_start, searched_here, since_allows.
  fold (first_index c varg).
  assert (Hj : (j < List.length (lineTokens c))%nat)
    by (apply nth_error_Some; congruence).
  destruct since as [q|]; [|tauto].
  destruct (Position.line q >? lineNo c) eqn:E1; zbool; [lia|].
  destruct (Position.line q <? lineNo c) eqn:E2; zbool.
  - split; [|tauto]. intros H. repeat split; auto; lia.
  - rewrite (skip_before_le _ _ _ _ _ Hn). split.
    + intros (k & u & Hk & Hu). repeat split; eauto; lia.
    + intros (_ & _ & H). apply H. lia.
Qed.

(** The search of the tracked line alone, and what a search that may span
    lines adds to it. *)
Lemma findNext_on_unfold varg since :
  findNext_on cm c condition varg since =
  let r := for_break (holds condition) (lineTokens c)
             (i_token_start c varg since) in
  let v := mkVars (lineNo c) (lineTokens c) (snd r) (fst r) [] in
  match snd r, varg with
  | None, MaySpanLines true =>
      eachLine_iter cm (visit cm condition since)
        (Z.to_nat (lastLine cm + 1 - startLine c since)) (startLine c since) v
  | _, _ => v
  end.
Proof.
  unfold findNext_on.
  destruct (for_break (holds condition) (lineTokens c)
              (i_token_start c varg since)) as [i [t|]]; cbn [fst snd];
    [now destruct varg as [|[|]|]|].
  destruct varg as [|[|]|]; reflexivity.
Qed.

Lemma i_token_start_spanning b b' since :
  i_token_start c (MaySpanLines b) since =
  i_token_start c (MaySpanLines b') since.
Proof. reflexivity. Qed.

End FindNext.

(** C3. [findNext] leaves the seeker as it found it: whatever the
    condition, the second argument and [since], and whether it returns a
    match, returns [null] or throws, the fields [line], [lineNo],
    [lineTokens] and [i_token] after the call are those before it. *)
Theorem findNext_leaves_seeker cm this condition varg since :
  after (findNext cm this condition varg since) = this.
Proof. destruct this; reflexivity. Qed.

(** C4. A search that may span lines and finds nothing on the tracked
    line goes through the following lines in increasing order from
    [max(since.line, lineNo + 1)] and returns the first match of the first
    line that has one, with that line's number and the token's index; it
    asks the editor for the tokens of the lines from the starting line to
    that one, in this order, and of no later line. *)
Theorem findNext_spans_to_first_match cm c condition since m i t :
  consistent_from cm (startLine c since) ->
  returned (findNext cm (Some c) condition (MaySpanLines false) since) =
    Return None ->
  startLine c since <= m <= lastLine cm ->
  (forall n, startLine c since <= n < m -> no_match cm condition since n) ->
  first_match cm condition since m i t ->
  findNext cm (Some c) condition (MaySpanLines true) since =
  mkOutcome (Return (Some (Found.mk m t i))) (Some c)
    (lines_between (startLine c since) m).
Proof.
  intros Hcons Hhere Hm Hno Hfirst.
  unfold findNext in *. rewrite findNext_on_unfold in *. cbn zeta in *.
  rewrite (i_token_start_spanning c true false).
  destruct (for_break (holds condition) (lineTokens c)
              (i_token_start c (MaySpanLines false) since)) as [k [u|]];
    cbn [fst snd returned] in *; [discriminate|].
  rewrite (eachLine_iter_first_match cm condition since m i t) by (auto; lia).
  cbn [fetched app result_of v_token v_lineNo v_i_token].
  rewrite (Hcons m) by lia. do 2 f_equal.
  assert (Hin : forall n, In n (lines_between (startLine c since) m) ->
                          startLine c since <= n <= m).
  { unfold lines_between. intros n Hn. apply in_map_iff in Hn as (k' & <- & Hk).
    apply in_seq in Hk. lia. }
  rewrite <- (map_id (lines_between _ _)) at 2.
  apply map_ext_in. intros n Hn. apply Hcons. apply Hin in Hn. lia.
Qed.

(** The multi-line example: from the first token of line 0 of
    [three_lines], [findNext(/x/, true)] returns the second token of
    line 1 and asks for the tokens of line 1 only. *)
Lemma findNext_spans_to_first_match_witness :
  findNext three_lines (Some three_lines_cursor) re_x (MaySpanLines true) None =
  mkOutcome (Return (Some (Found.mk 1 (tok 2 5 "x") 1)))
    (Some three_lines_cursor) [1].
Proof.
  apply (findNext_spans_to_first_match three_lines three_lines_cursor re_x
           None 1 1%nat (tok 2 5 "x")).
  - intros n Hn. change (1 <= n <= 2) in Hn.
    change (Z.of_nat (Z.to_nat n) = n). lia.
  - reflexivity.
  - change (1 <= 1 <= 2). lia.
  - intros n Hn. change (1 <= n < 1) in Hn. lia.
  - split; [reflexivity|]. split; [reflexivity|]. split; [exact I|].
    intros j u Hj. destruct j as [|j]; [|lia].
    intros [= <-] _. reflexivity.
Defined.

(** C5. Without an explicit index and without [since], a search of the
    tracked line starts at index [i_token + 1]: it returns the first token
    after the current one that satisfies the condition, with its index, and
    [null] when there is none; on the tokens [{0,3,a} {3,6,b} {6,9,a}] with
    the cursor on the first, [findNext(/a/)] returns [{6,9,a}], at
    index 2. *)
Theorem findNext_starts_after_current :
  (forall cm c condition (omitted : bool),
     let varg := if omitted then Omitted else MaySpanLines false in
     exists r,
       findNext cm (Some c) condition varg None =
         mkOutcome (Return r) (Some c) [] /\
       match r with
       | Some f =>
           Found.lineNo f = lineNo c /\
           (i_token c < Found.i_token f)%nat /\
           nth_error (lineTokens c) (Found.i_token f) = Some (Found.token f) /\
           holds condition (Found.token f) = true /\
           forall j u, (i_token c < j < Found.i_token f)%nat ->
                       nth_error (lineTokens c) j = Some u ->
                       holds condition u = false
       | None =>
           forall j u, (i_token c < j)%nat ->
                       nth_error (lineTokens c) j = Some u ->
                       holds condition u = false
       end) /\
  findNext aba (Some aba_cursor) re_a Omitted None =
    mkOutcome (Return (Some (Found.mk 0 (tok 6 9 "a") 2))) (Some aba_cursor) [].
Proof.
  split; [|reflexivity].
  intros cm c condition omitted varg.
  assert (Hon : findNext_on cm c condition varg None =
    let r := for_break (holds condition) (lineTokens c) (S (i_token c)) in
    mkVars (lineNo c) (lineTokens c) (snd r) (fst r) []).
  { rewrite findNext_on_unfold. cbn zeta.
    replace (i_token_start c varg None) with (S (i_token c))
      by now destruct omitted.
    destruct (snd _); destruct omitted; reflexivity. }
  unfold findNext. rewrite Hon. cbn zeta. unfold result_of. cbn [v_token fetched].
  destruct (for_break (holds condition) (lineTokens c) (S (i_token c)))
    as [i [t|]] eqn:E; cbn [fst snd v_lineNo v_i_token].
  - eexists. split; [reflexivity|]. cbn [Found.lineNo Found.i_token Found.token].
    apply for_break_first in E as (Hle & Hn & Hp & Hskip).
    split; [reflexivity|]. split; [lia|]. split; [exact Hn|].
    split; [exact Hp|]. intros j u Hj. apply Hskip. lia.
  - eexists. split; [reflexivity|]. intros j u Hj.
    assert (Hnone : snd (for_break (holds condition) (lineTokens c)
                           (S (i_token c))) = None) by now rewrite E.
    apply (proj1 (for_break_nothing _ _ _) Hnone). lia.
Qed.

(** On a seeker that tracks a line [findNext] returns, and it returns
    [null] exactly when no token of the searched range satisfies the
    condition: no searched token of the tracked line and, for a search that
    may span lines, no searched token of the lines from
    [max(since.line, lineNo + 1)] to the last. *)
Lemma findNext_null_iff cm c condition varg since :
  exists r,
    returned (findNext cm (Some c) condition varg since) = Return r /\
    (r = None <->
     (forall j t, searched_here c varg since j ->
                  nth_error (lineTokens c) j = Some t ->
                  holds condition t = false) /\
     (varg = MaySpanLines true ->
      forall n, startLine c since <= n <= lastLine cm ->
                no_match cm condition since n)).
Proof.
  eexists. split; [reflexivity|].
  rewrite findNext_on_unfold. cbn zeta.
  set (r := for_break (holds condition) (lineTokens c)
              (i_token_start c varg since)).
  assert (Hhere : snd r = None <->
    forall j t, searched_here c varg since j ->
                nth_error (lineTokens c) j = Some t ->
                holds condition t = false).
  { unfold r. rewrite for_break_nothing. split; intros H j t.
    - intros Hs Hn. apply (H j t); auto. now apply (i_token_start_le c varg since j t).
    - intros Hj Hn. apply (H j t); auto. now apply (i_token_start_le c varg since j t). }
  destruct (snd r) as [t|] eqn:Er.
  - unfold result_of. cbn [v_token]. split; [discriminate|].
    intros [H _]. apply Hhere in H. discriminate.
  - assert (Hplain :
      result_of (mkVars (lineNo c) (lineTokens c) None (fst r) []) = None <->
      (forall j t, searched_here c varg since j ->
                   nth_error (lineTokens c) j = Some t ->
                   holds condition t = false))
      by (split; [intros _; now apply Hhere | reflexivity]).
    destruct varg as [|[|]|] eqn:Ev;
      try (rewrite Hplain; split; [intros H; split; [exact H | discriminate]
                                  | tauto]).
    unfold result_of.
    set (v := mkVars (lineNo c) (lineTokens c) None (fst r) []).
    pose proof (eachLine_iter_nothing cm condition since
                  (Z.to_nat (lastLine cm + 1 - startLine c since))
                  (startLine c since) v eq_refl) as Hiter.
    destruct (v_token (eachLine_iter _ _ _ _ v)) as [u|].
    + split; [discriminate|]. intros [_ H].
      assert (@None Token = Some u); [|discriminate].
      symmetry. apply Hiter. intros n Hn. apply H; [reflexivity | lia].
    + split; [|reflexivity]. intros _. split; [now apply Hhere|].
      intros _ n Hn. apply (proj1 Hiter eq_refl). lia.
Qed.

(** ** expandRange *)

(** *** The style pattern *)

Lemma fields_not_nil s : fields s <> [].
Proof.
  destruct s as [|c s]; simpl; [discriminate|].
  destruct (is_space c); [discriminate|].
  destruct (fields s); discriminate.
Qed.

(** A style without whitespace matches at the beginning of [s], up to a
    whitespace or the end, exactly when it is the first field of [s]. *)
Lemma style_here_first_field style s :
  no_space style = true ->
  style_here style s = String.eqb style (hd EmptyString (fields s)).
Proof.
  revert s. induction style as [|a style IH]; intros s Hns.
  - unfold style_here. simpl. destruct s as [|c s]; simpl; [reflexivity|].
    destruct (is_space c); [reflexivity|].
    destruct (fields s); reflexivity.
  - simpl in Hns. apply andb_true_iff in Hns as [Ha Hns].
    apply negb_true_iff in Ha.
    destruct s as [|b s]; [reflexivity|].
    unfold style_here. simpl.
    destruct (Ascii.eqb a b) eqn:Eab.
    + apply Ascii.eqb_eq in Eab. subst b. rewrite Ha.
      specialize (IH s Hns). unfold style_here in IH. rewrite IH.
      pose proof (fields_not_nil s).
      destruct (fields s) as [|w ws]; [congruence|].
      simpl. now rewrite Ascii.eqb_refl.
    + destruct (is_space b); [reflexivity|].
      destruct (fields s); simpl; now rewrite Eab.
Qed.

(** The search finds the style exactly when it is one of the fields; after
    a character that is no whitespace, the first field does not count. *)
Lemma styleRE_search_fields style s :
  is_tag style = true ->
  styleRE_search style true s = existsb (String.eqb style) (fields s) /\
  styleRE_search style false s = existsb (String.eqb style) (tl (fields s)).
Proof.
  intros Htag. apply andb_true_iff in Htag as [Hne Hns].
  apply negb_true_iff in Hne.
  induction s as [|c s [IHt IHf]].
  - simpl. rewrite (style_here_first_field style EmptyString Hns). simpl.
    now rewrite orb_false_r.
  - cbn [styleRE_search andb]. rewrite (style_here_first_field style _ Hns).
    cbn [fields]. destruct (is_space c) eqn:Ec.
    + rewrite IHt. cbn [hd tl existsb]. now rewrite Hne.
    + rewrite IHf. pose proof (fields_not_nil s).
      destruct (fields s) as [|w ws]; [congruence|]. split; reflexivity.
Qed.

(** For a style that is a tag the literal search tests membership in the
    set of whitespace-separated tags. *)
Lemma styleRE_test_has_tag style s :
  is_tag style = true -> styleRE_test style s = has_tag style s.
Proof.
  intros Htag. unfold styleRE_test, has_tag, tags.
  rewrite (proj1 (styleRE_search_fields style s Htag)).
  apply andb_true_iff in Htag as [Hne _]. apply negb_true_iff in Hne.
  induction (fields s) as [|w ws IH]; [reflexivity|].
  cbn [existsb filter]. destruct (String.eqb w EmptyString) eqn:Ew.
  - apply String.eqb_eq in Ew. subst w. cbn [negb]. now rewrite Hne.
  - cbn [negb existsb]. now rewrite IH.
Qed.

Lemma fields_no_space s w : In w (fields s) -> no_space w = true.
Proof.
  revert w. induction s as [|c s IH]; intros w; simpl.
  - intros [<-|[]]. reflexivity.
  - destruct (is_space c) eqn:Ec.
    + intros [<-|H]; [reflexivity | now apply IH].
    + pose proof (fields_not_nil s).
      destruct (fields s) as [|v vs]; [congruence|].
      intros [<-|H'].
      * simpl. rewrite Ec. simpl. apply IH. now left.
      * apply IH. now right.
Qed.

(** What is one of the tags of a string is a tag. *)
Lemma has_tag_is_tag style s : has_tag style s = true -> is_tag style = true.
Proof.
  unfold has_tag, tags, is_tag. intros H.
  apply existsb_exists in H as (w & Hin & Heq).
  apply String.eqb_eq in Heq. subst w.
  apply filter_In in Hin as [Hin Hne]. rewrite Hne.
  now rewrite (fields_no_space s style Hin).
Qed.

(** *** The range *)

Lemma skipn_nth_error_cons {A} (l : list A) i x :
  nth_error l i = Some x -> skipn i l = x :: skipn (S i) l.
Proof.
  revert l. induction i as [|i IH]; intros [|a l]; simpl; try discriminate.
  - now intros [= ->].
  - intros H. now apply IH.
Qed.

Lemma In_skipn_In {A} (l : list A) i x : In x (skipn i l) -> In x l.
Proof.
  intros H. apply In_nth_error in H as (n & Hn).
  rewrite nth_error_skipn in Hn. now apply nth_error_In in Hn.
Qed.

(** The tokens after a token of a covering list cover the rest of the
    line. *)
Lemma covers_after a tokens b i t :
  covers a tokens b = true -> nth_error tokens i = Some t ->
  covers (end_ t) (skipn (S i) tokens) b = true.
Proof.
  revert a i. induction tokens as [|u rest IH]; intros a i Hc Hn.
  - destruct i; discriminate.
  - apply covers_cons in Hc as (_ & _ & Hc). destruct i as [|i]; simpl in Hn.
    + now injection Hn as <-.
    + apply (IH _ i Hc Hn).
Qed.

Section Extend.
Variable p : Token -> bool.

Lemma extend_right_ge a rest b x :
  covers a rest b = true -> x <= a -> x <= extend_right p rest x.
Proof.
  revert a x. induction rest as [|t rest IH]; intros a x Hc Hx; simpl; [lia|].
  apply covers_cons in Hc as (Hs & Hle & Hc).
  destruct (p t); [|lia].
  specialize (IH (end_ t) (end_ t) Hc (Z.le_refl _)). lia.
Qed.

Lemma extend_right_end rest x :
  extend_right p rest x = x \/ token_end rest (extend_right p rest x).
Proof.
  revert x. induction rest as [|t rest IH]; intros x; simpl; [now left|].
  destruct (p t); [|now left]. right.
  destruct (IH (end_ t)) as [-> | (u & Hu & <-)].
  - exists t. split; [now left | reflexivity].
  - exists u. split; [now right | reflexivity].
Qed.

Lemma extend_left_cases tokens i d :
  extend_left p tokens i d = d \/
  exists j t, (j <= i)%nat /\ nth_error tokens j = Some t /\ p t = false /\
              extend_left p tokens i d = end_ t.
Proof.
  induction i as [|i IH]; cbn [extend_left].
  - destruct (nth_error tokens 0) as [t|] eqn:E; [|now left].
    destruct (p t) eqn:Ep; cbn [negb]; [now left|].
    right. exists 0%nat, t. auto.
  - destruct (nth_error tokens (S i)) as [t|] eqn:E; [|now left].
    destruct (p t) eqn:Ep; cbn [negb].
    + destruct IH as [H | (j & u & Hj & Hu & Hp & H)]; [now left|].
      right. exists j, u. repeat split; auto.
    + right. exists (S i), t. auto.
Qed.

End Extend.

(** [expandRange] throws when the pattern cannot be built, and else
    returns what its loops compute with the test of the pattern. *)
Lemma expandRange_compiled js cm pos style re :
  styleRE js style = Some re ->
  expandRange js cm pos style = Return (range_with (test_type re) cm pos).
Proof.
  intros H. unfold expandRange, range_with. rewrite H.
  now destruct (Nat.eqb _ _).
Qed.

Lemma expandRange_throws js cm pos style :
  styleRE js style = None -> expandRange js cm pos style = Throw.
Proof. intros H. unfold expandRange. now rewrite H. Qed.

(** The range in terms of the token the first loop stops on. *)
Lemma expandRange_unfold p cm pos :
  let tokens := getLineTokens cm (Position.line pos) in
  range_with p cm pos =
  match for_break (fun t => end_ t >=? Position.ch pos) tokens 0 with
  | (iSince, Some _) =>
      Some (Range.mk
              (Position.mk (Position.line pos)
                 (extend_left p tokens iSince 0))
              (Position.mk (Position.line pos)
                 (extend_right p (skipn iSince tokens)
                    (Position.ch pos))))
  | (_, None) => None
  end.
Proof.
  intros tokens. unfold range_with. fold tokens.
  destruct (for_break (fun t => end_ t >=? Position.ch pos) tokens 0)
    as [i [t|]] eqn:E; cbn [fst].
  - apply for_break_found in E as (_ & Hn & _).
    assert (i < List.length tokens)%nat by (apply nth_error_Some; congruence).
    replace (i =? List.length tokens)%nat with false
      by (symmetry; apply Nat.eqb_neq; lia).
    reflexivity.
  - apply for_break_none in E. subst i. simpl. now rewrite Nat.eqb_refl.
Qed.

(** The range is [null] exactly when every token of the line ends before
    [pos.ch]. *)
Lemma expandRange_null_iff p cm pos :
  range_with p cm pos = None <->
  forall t, In t (getLineTokens cm (Position.line pos)) ->
            end_ t < Position.ch pos.
Proof.
  rewrite expandRange_unfold. cbn zeta.
  set (tokens := getLineTokens cm (Position.line pos)).
  set (q := fun t : Token => end_ t >=? Position.ch pos).
  pose proof (for_break_nothing q tokens 0) as Hnone.
  destruct (for_break q tokens 0) as [i [t|]]; cbn [snd] in Hnone.
  - split; [discriminate|]. intros Hall.
    assert (H : Some t = None); [|discriminate].
    apply Hnone. intros j u _ Hu. apply nth_error_In in Hu.
    apply Hall in Hu. unfold q. zbool. lia.
  - split; [|reflexivity]. intros _ t Hin.
    apply In_nth_error in Hin as (j & Hj).
    assert (Hq : q t = false)
      by (apply (proj1 Hnone eq_refl j t); [lia | exact Hj]).
    unfold q in Hq. zbool. lia.
Qed.

(** The bounds of the range when [pos.ch] is inside a token that passes
    the test, on contiguous tokens. *)
Lemma range_with_bounds p cm pos a len k t :
  covers a (getLineTokens cm (Position.line pos)) len = true -> 0 <= a ->
  nth_error (getLineTokens cm (Position.line pos)) k = Some t ->
  contains t (Position.ch pos) ->
  p t = true ->
  exists r,
    range_with p cm pos = Some r /\
    Position.line (Range.from r) = Position.line pos /\
    Position.line (Range.to r) = Position.line pos /\
    Position.ch (Range.from r) <= Position.ch pos <= Position.ch (Range.to r) /\
    (Position.ch (Range.from r) = 0 \/
     token_end (getLineTokens cm (Position.line pos))
       (Position.ch (Range.from r))) /\
    token_end (getLineTokens cm (Position.line pos)) (Position.ch (Range.to r)).
Proof.
  intros Hcov Ha Hk [Hs He] Hp.
  rewrite expandRange_unfold. cbn zeta.
  set (tokens := getLineTokens cm (Position.line pos)) in *.
  set (ch := Position.ch pos) in *.
  set (q := fun t : Token => end_ t >=? ch).
  destruct (for_break q tokens 0) as [i [ts|]] eqn:E.
  2:{ assert (Hq : q t = false).
      { apply (proj1 (for_break_nothing q tokens 0%nat)) with k;
          [now rewrite E | lia | exact Hk]. }
      unfold q in Hq. zbool. lia. }
  apply for_break_first in E as (_ & Hi & Hqs & Hbefore).
  assert (Hik : (i <= k)%nat).
  { destruct (Nat.le_gt_cases i k) as [|Hgt]; [assumption|].
    assert (Hq : q t = false) by (apply (Hbefore k t); [lia | exact Hk]).
    unfold q in Hq. zbool. lia. }
  assert (Hends : end_ ts >= ch) by (unfold q in Hqs; zbool; lia).
  assert (Hfail : p ts = false -> end_ ts = ch).
  { intros Hf. assert (i <> k) by (intros ->; congruence).
    assert (end_ ts <= start t)
      by (apply (covers_ordered a tokens len i k); auto; lia).
    lia. }
  eexists. split; [reflexivity|]. cbn [Range.from Range.to Position.line Position.ch].
  split; [reflexivity|]. split; [reflexivity|].
  rewrite (skipn_nth_error_cons tokens i ts Hi). cbn [extend_right].
  pose proof (covers_after a tokens len i ts Hcov Hi) as Hrest.
  assert (Hfrom :
    extend_left p tokens i 0 <= ch /\
    (extend_left p tokens i 0 = 0 \/
     token_end tokens (extend_left p tokens i 0))).
  { destruct (extend_left_cases p tokens i 0)
      as [-> | (j & tj & Hj & Hnj & Hpj & ->)].
    - split; [|now left].
      destruct (covers_within a tokens len k t Hcov Hk). lia.
    - split.
      + assert (j <> k) by (intros ->; congruence).
        assert (end_ tj <= start t)
          by (apply (covers_ordered a tokens len j k); auto; lia).
        lia.
      + right. exists tj. split; [now apply nth_error_In with j | reflexivity]. }
  destruct Hfrom as [Hfrom Hfrom_end].
  destruct (p ts) eqn:Eps.
  - pose proof (extend_right_ge p (end_ ts) _ len (end_ ts)
                  Hrest (Z.le_refl _)).
    split; [lia|]. split; [exact Hfrom_end|].
    destruct (extend_right_end p (skipn (S i) tokens) (end_ ts))
      as [-> | (u & Hu & <-)].
    + exists ts. split; [now apply nth_error_In with i | reflexivity].
    + exists u. split; [now apply In_skipn_In with (S i) | reflexivity].
  - split; [lia|]. split; [exact Hfrom_end|].
    exists ts. split; [now apply nth_error_In with i | now apply Hfail].
Qed.

(** *** Plain styles *)

Lemma plain_atom_of c : syntax_char c = false -> atom_of c = Some (Lit c).
Proof.
  intros H. unfold atom_of.
  assert (Hc : forall d, syntax_char d = true -> Ascii.eqb c d = false).
  { intros d Hd. destruct (Ascii.eqb c d) eqn:E; [|reflexivity].
    apply Ascii.eqb_eq in E. congruence. }
  rewrite (Hc "."%char eq_refl), (Hc "^"%char eq_refl), (Hc "$"%char eq_refl).
  now rewrite H.
Qed.

(** The pattern of a plain style is made of characters that stand for
    themselves. *)
Lemma plain_atoms_of style :
  plain style = true ->
  atoms_of style = Some (map Lit (list_ascii_of_string style)).
Proof.
  induction style as [|c style IH]; simpl; [reflexivity|].
  intros H. apply andb_true_iff in H as [Hc Hs].
  apply negb_true_iff in Hc. now rewrite (plain_atom_of c Hc), (IH Hs).
Qed.

Lemma after_atoms_literal style bol s :
  after_atoms (map Lit (list_ascii_of_string style)) bol s =
  after_prefix style s.
Proof.
  revert bol s. induction style as [|c style IH]; intros bol s; simpl;
    [reflexivity|].
  destruct s as [|b s]; [reflexivity|]. destruct (Ascii.eqb c b); auto.
Qed.

Lemma search_atoms_literal style boundary bol s :
  search_atoms (map Lit (list_ascii_of_string style)) boundary bol s =
  styleRE_search style boundary s.
Proof.
  revert boundary bol. induction s as [|c s IH]; intros boundary bol; simpl;
    unfold atoms_here, style_here; rewrite after_atoms_literal;
    [reflexivity|].
  now rewrite IH.
Qed.

(** For a plain style the pattern is built, and its test is the literal
    search, whatever the constructor does with other sources. *)
Lemma styleRE_plain js style :
  plain style = true ->
  exists re, styleRE js style = Some re /\
             forall s, re s = styleRE_test style s.
Proof.
  intros H. unfold styleRE. rewrite (plain_atoms_of style H).
  eexists. split; [reflexivity|]. intros s. apply search_atoms_literal.
Qed.

(** For a plain style that is a tag, the test of the pattern on a token
    is membership in the tags of its type. *)
Lemma styleRE_plain_tag js style :
  plain style = true -> is_tag style = true ->
  exists re, styleRE js style = Some re /\
             forall t, test_type re t = has_tag style (type_string t).
Proof.
  intros Hplain Htag. destruct (styleRE_plain js style Hplain) as (re & Hre & Hs).
  exists re. split; [exact Hre|]. intros t. unfold test_type.
  now rewrite Hs, styleRE_test_has_tag.
Qed.

(** C6. On the line whose only token is [{0, 4, "$"}], offset 2 is inside
    a token whose type has [$] among its whitespace-separated tags, yet
    [expandRange] with the style [$] answers the range from 4 to 2: the
    style is spliced into the pattern, where [$] is the end of the input,
    so the test fails on the token, and [from.ch] is after [pos.ch]. *)
Theorem expandRange_bounds_fail_on_spliced_style :
  covers 0 (getLineTokens dollar_line 0) 4 = true /\
  nth_error (getLineTokens dollar_line 0) 0 = Some (tok 0 4 "$") /\
  contains (tok 0 4 "$") 2 /\
  has_tag "$" "$" = true /\
  forall js,
    expandRange js dollar_line (Position.mk 0 2) "$" =
    Return (Some (Range.mk (Position.mk 0 4) (Position.mk 0 2))).
Proof.
  split; [reflexivity|]. split; [reflexivity|].
  split; [unfold contains; simpl; lia|]. split; reflexivity.
Qed.

(** C7. [e.] is not one of the tags of the types [em] and [em strong],
    yet [expandRange] with the style [e.] at offset 6 of [em_line] answers
    the range from 0 to 10, that of the tokens with these types, and the
    same at offset 2: the style is spliced into the pattern, where [.] is
    any character. *)
Theorem expandRange_matches_spliced_pattern :
  has_tag "e." "em" = false /\
  has_tag "e." "em strong" = false /\
  forall js,
    expandRange js em_line (Position.mk 0 6) "e." =
      Return (Some (Range.mk (Position.mk 0 0) (Position.mk 0 10))) /\
    expandRange js em_line (Position.mk 0 2) "e." =
      Return (Some (Range.mk (Position.mk 0 0) (Position.mk 0 10))).
Proof. repeat split; reflexivity. Qed.

(** C8. On [one_token] no token ends at or after offset 9, yet
    [expandRange] with the style [(] does not return [null]: the style is
    spliced into the pattern, which is then no pattern, and [new RegExp]
    throws before the tokens are read. *)
Theorem expandRange_throws_on_spliced_style :
  (forall t, In t (getLineTokens one_token 0) -> end_ t < 9) /\
  forall js, expandRange js one_token (Position.mk 0 9) "(" = Throw.
Proof.
  split; [|reflexivity].
  intros t [<-|[]]. simpl. lia.
Qed.

(** C10. The only line of [empty_line] has no token, yet [expandRange]
    with the style [(] at offset 0 does not return [null]: [new RegExp]
    throws on the pattern the style is spliced into, before the tokens are
    read. *)
Theorem expandRange_empty_line_throws :
  getLineTokens empty_line 0 = [] /\
  forall js, expandRange js empty_line (Position.mk 0 0) "(" = Throw.
Proof. split; reflexivity. Qed.

(** * Further properties *)

(** ** getEveryCharToken *)

(** Writing the first empty slot of an array fills it; when none is left
    the array grows by one. *)
Lemma array_set_next w m v :
  array_set (w ++ repeat Hole m) (List.length w) v =
  (w ++ [v]) ++ repeat Hole (m - 1).
Proof.
  unfold array_set. rewrite length_app, repeat_length.
  destruct m as [|m].
  - replace (List.length w <? List.length w + 0)%nat with false
      by (symmetry; apply Nat.ltb_ge; lia).
    simpl. rewrite Nat.add_0_r, Nat.sub_diag. simpl.
    now rewrite !app_nil_r.
  - replace (List.length w <? List.length w + S m)%nat with true
      by (symmetry; apply Nat.ltb_lt; lia).
    rewrite firstn_app, Nat.sub_diag, firstn_all, firstn_O, app_nil_r.
    rewrite skipn_app, skipn_all2 by lia.
    replace (S (List.length w) - List.length w)%nat with 1%nat by lia.
    cbn [repeat skipn app]. replace (S m - 1)%nat with m by lia.
    rewrite <- app_assoc. reflexivity.
Qed.

Lemma fill_next count w m s :
  fill count (w ++ repeat Hole m) (List.length w) s =
  ((w ++ repeat (Style s) count) ++ repeat Hole (m - count),
   (List.length w + count)%nat).
Proof.
  revert w m. induction count as [|count IH]; intros w m; simpl.
  - now rewrite app_nil_r, Nat.sub_0_r, Nat.add_0_r.
  - rewrite array_set_next.
    replace (S (List.length w)) with (List.length (w ++ [Style s]))
      by (rewrite length_app; simpl; lia).
    rewrite IH. rewrite length_app. simpl. f_equal; [|lia].
    replace (m - 1 - count)%nat with (m - S count)%nat by lia.
    now rewrite <- (app_assoc w [Style s]).
Qed.

(** The loop over the tokens writes the styles [written] lists, one after
    the other, from the first empty slot on. *)
Lemma each_token_written tokens w m :
  each_token tokens (w ++ repeat Hole m) (List.length w) =
  ((w ++ map Style (written (List.length w) tokens)) ++
     repeat Hole (m - List.length (written (List.length w) tokens)),
   (List.length w + List.length (written (List.length w) tokens))%nat).
Proof.
  revert w m. induction tokens as [|t rest IH]; intros w m; simpl.
  - now rewrite app_nil_r, Nat.sub_0_r, Nat.add_0_r.
  - unfold while_below. rewrite fill_next.
    set (count := Z.to_nat (end_ t - Z.of_nat (List.length w))).
    replace (List.length w + count)%nat
      with (List.length (w ++ repeat (Style (type t)) count))
      by (rewrite length_app, repeat_length; reflexivity).
    rewrite IH. rewrite !length_app, !repeat_length. fold count.
    f_equal; [|lia].
    rewrite map_app, map_repeat, <- !app_assoc. do 3 f_equal. f_equal. lia.
Qed.

(** The loop over the cache does what the loop over the tokens does. *)
Lemma each_style_runs_of tokens ans i :
  each_style (runs_of tokens) ans i = each_token tokens ans i.
Proof.
  revert ans i. induction tokens as [|t rest IH]; intros ans i; simpl;
    [reflexivity|].
  destruct (while_below ans i (end_ t) (type t)). apply IH.
Qed.

(** The loop leaves [i] at the furthest end it met. *)
Lemma written_length i tokens :
  (i + List.length (written i tokens))%nat =
  Nat.max i (Z.to_nat (furthest tokens)).
Proof.
  revert i. induction tokens as [|t rest IH]; intros i; simpl; [lia|].
  rewrite length_app, repeat_length, Nat.add_assoc, IH. lia.
Qed.

(** On tokens that obey the tokenizer contract from character [i] on, the
    loop writes for each character the type of the token that contains
    it. *)
Lemma written_covers i tokens b :
  covers (Z.of_nat i) tokens b = true ->
  Z.of_nat i <= b /\
  List.length (written i tokens) = (Z.to_nat b - i)%nat /\
  forall j t k, nth_error tokens j = Some t -> contains t k ->
                nth_error (written i tokens) (Z.to_nat k - i) = Some (type t).
Proof.
  revert i. induction tokens as [|t rest IH]; intros i Hc.
  - simpl in Hc. zbool. simpl. repeat split; try lia.
    intros [|j] u k; discriminate.
  - apply covers_cons in Hc as (Hs & Hle & Hc). simpl.
    set (count := Z.to_nat (end_ t - Z.of_nat i)).
    assert (Hi : Z.of_nat (i + count) = end_ t) by lia.
    rewrite <- Hi in Hc. destruct (IH _ Hc) as (Hb & Hlen & Hnth).
    split; [lia|]. split; [rewrite length_app, repeat_length, Hlen; lia|].
    intros j u k Hj [Hk1 Hk2]. destruct j as [|j]; simpl in Hj.
    + injection Hj as <-. rewrite nth_error_app1 by (rewrite repeat_length; lia).
      apply nth_error_repeat. lia.
    + rewrite Hi in Hc.
      destruct (covers_within _ _ _ _ _ Hc Hj) as (Hu & _).
      rewrite nth_error_app2 by (rewrite repeat_length; lia).
      rewrite repeat_length.
      replace (Z.to_nat k - i - count)%nat with (Z.to_nat k - (i + count))%nat
        by lia.
      apply (Hnth j u k Hj). split; assumption.
Qed.

(** The array [getEveryCharToken] returns for a line that is not
    highlighted: the styles written, then the slots still empty. *)
Lemma getEveryCharToken_fallback cm line :
  styles line = None ->
  let tokens := getLineTokens cm (lineNo_of cm (handle line)) in
  getEveryCharToken cm line =
  map Style (written 0 tokens) ++
  repeat Hole (text_length line - List.length (written 0 tokens)).
Proof.
  intros Hs tokens. unfold getEveryCharToken. rewrite Hs. fold tokens.
  pose proof (each_token_written tokens [] (text_length line)) as H.
  cbn [app List.length] in H. now rewrite H.
Qed.

(** X1. For a line that is not highlighted, the array has a style in each
    of its first [e] slots and an empty slot in the others, where [e] is the
    furthest end of the line's tokens (0 when there is none); its length is
    the larger of [line.text.length] and [e], not always
    [line.text.length]. *)
Theorem getEveryCharToken_shape cm line :
  styles line = None ->
  let e := Z.to_nat (furthest (getLineTokens cm (lineNo_of cm (handle line)))) in
  exists ws,
    List.length ws = e /\
    getEveryCharToken cm line =
      map Style ws ++ repeat Hole (text_length line - e) /\
    List.length (getEveryCharToken cm line) = Nat.max (text_length line) e.
Proof.
  intros Hs e. rewrite (getEveryCharToken_fallback cm line Hs). cbn zeta.
  set (tokens := getLineTokens cm (lineNo_of cm (handle line))) in *.
  pose proof (written_length 0 tokens) as Hlen.
  rewrite Nat.add_0_l, Nat.max_0_l in Hlen. fold e in Hlen.
  exists (written 0 tokens). rewrite Hlen. split; [reflexivity|].
  split; [reflexivity|].
  rewrite length_app, length_map, repeat_length, Hlen. lia.
Qed.

(** The shape of the array for [em_line] when its text is two characters
    longer than its tokens reach. *)
Lemma getEveryCharToken_shape_witness :
  exists ws,
    List.length ws = 14%nat /\
    getEveryCharToken em_line em_long =
      map Style ws ++ [Hole; Hole] /\
    List.length (getEveryCharToken em_line em_long) = 16%nat.
Proof.
  apply (getEveryCharToken_shape em_line em_long). reflexivity.
Defined.

(** X2. When the tokens of a line that is not highlighted obey the
    tokenizer contract and cover the text, the array has one entry per
    character, and the entry of a character is the type of the token that
    contains it. *)
Theorem getEveryCharToken_per_char cm line j t k :
  styles line = None ->
  covers 0 (getLineTokens cm (lineNo_of cm (handle line)))
    (Z.of_nat (text_length line)) = true ->
  nth_error (getLineTokens cm (lineNo_of cm (handle line))) j = Some t ->
  contains t k ->
  List.length (getEveryCharToken cm line) = text_length line /\
  nth_error (getEveryCharToken cm line) (Z.to_nat k) = Some (Style (type t)).
Proof.
  intros Hs Hc Hj Hk. rewrite (getEveryCharToken_fallback cm line Hs). cbn zeta.
  set (tokens := getLineTokens cm (lineNo_of cm (handle line))) in *.
  destruct (written_covers 0 tokens _ Hc) as (_ & Hlen & Hnth).
  rewrite length_app, length_map, repeat_length, Hlen. split; [lia|].
  specialize (Hnth j t k Hj Hk). rewrite Nat.sub_0_r in Hnth.
  assert (Z.to_nat k < List.length (written 0 tokens))%nat
    by (apply nth_error_Some; congruence).
  rewrite nth_error_app1 by (rewrite length_map; lia).
  now rewrite nth_error_map, Hnth.
Qed.

(** Character 6 of [em_line] has the type of the second token. *)
Lemma getEveryCharToken_per_char_witness :
  List.length (getEveryCharToken em_line em_plain) = 14%nat /\
  nth_error (getEveryCharToken em_line em_plain) 6 =
    Some (Style (Some "em strong"%string)).
Proof.
  apply (getEveryCharToken_per_char em_line em_plain 1 (tok 4 10 "em strong") 6).
  - reflexivity.
  - reflexivity.
  - reflexivity.
  - unfold contains. simpl. lia.
Defined.

(** X3. A style cache that holds the runs of the line's tokens gives the
    array that the tokens give when the line is not highlighted. *)
Theorem getEveryCharToken_cache_agrees cm line :
  styles line =
    Some (runs_of (getLineTokens cm (lineNo_of cm (handle line)))) ->
  getEveryCharToken cm line =
  getEveryCharToken cm (mkLine (text_length line) None (handle line)).
Proof.
  intros Hs. unfold getEveryCharToken. rewrite Hs. cbn [styles text_length handle].
  now rewrite each_style_runs_of.
Qed.

(** The two arrays for [em_line]. *)
Lemma getEveryCharToken_cache_agrees_witness :
  getEveryCharToken em_line em_cached = getEveryCharToken em_line em_plain.
Proof.
  apply (getEveryCharToken_cache_agrees em_line em_cached). reflexivity.
Defined.

(** X4. The array and the seeker agree: on a line that obeys the tokenizer
    contract, the entry of character [ch] is the type of the token the
    cursor is on after [setPos(line, ch, true)]. *)
Theorem getEveryCharToken_setPos cm this line ch :
  styles line = None ->
  covers 0 (getLineTokens cm (lineNo_of cm (handle line)))
    (Z.of_nat (text_length line)) = true ->
  0 <= ch < Z.of_nat (text_length line) ->
  exists c t,
    setPos cm this (LineCh (Handle (handle line)) ch true) =
      (Return tt, Some c) /\
    nth_error (lineTokens c) (i_token c) = Some t /\
    nth_error (getEveryCharToken cm line) (Z.to_nat ch) = Some (Style (type t)).
Proof.
  intros Hs Hc Hch.
  destruct (refetch_contains cm (handle line) ch _ Hc Hch) as (t & Hn & Hin).
  exists (refetch cm (handle line) ch), t.
  split; [now destruct this|]. split; [exact Hn|].
  rewrite (getEveryCharToken_fallback cm line Hs). cbn zeta.
  set (tokens := getLineTokens cm (lineNo_of cm (handle line))) in *.
  destruct (written_covers 0 tokens _ Hc) as (_ & Hlen & Hnth).
  specialize (Hnth (i_token (refetch cm (handle line) ch)) t ch Hn Hin).
  rewrite Nat.sub_0_r in Hnth.
  assert (Z.to_nat ch < List.length (written 0 tokens))%nat
    by (apply nth_error_Some; congruence).
  rewrite nth_error_app1 by (rewrite length_map; lia).
  now rewrite nth_error_map, Hnth.
Qed.

(** Character 12 of [em_line], from a new seeker. *)
Lemma getEveryCharToken_setPos_witness :
  exists c t,
    setPos em_line None (LineCh (Handle (handle em_plain)) 12 true) =
      (Return tt, Some c) /\
    nth_error (lineTokens c) (i_token c) = Some t /\
    nth_error (getEveryCharToken em_line em_plain) (Z.to_nat 12) =
      Some (Style (type t)).
Proof.
  apply (getEveryCharToken_setPos em_line None em_plain 12).
  - reflexivity.
  - reflexivity.
  - simpl. lia.
Defined.

(** ** More on setPos *)

(** X5. The cursor of a seeker a program can build is the index of a
    token of the cached list or the length of that list, never more. *)
Theorem reachable_index_in_bounds c :
  reachable (Some c) -> (i_token c <= List.length (lineTokens c))%nat.
Proof.
  intros Hr. destruct (reachable_settled (Some c) Hr c eq_refl) as [ch0 ->].
  pose proof (scan_bounds (fun t => end_ t >? ch0) (skipn 0 (lineTokens c)) 0).
  unfold for_break. simpl in *. lia.
Qed.

(** The bound on the seeker that [setPos(0, 3)] left past the end of
    [one_token]. *)
Lemma reachable_index_in_bounds_witness :
  (1 <= List.length (getLineTokens one_token 0))%nat.
Proof.
  apply (reachable_index_in_bounds past_end_cursor).
  exact (reach_setPos one_token None (LineCh (LineNumber 0) 3 false) reach_new).
Defined.

(** X6. [setPos] throws in two cases, and in no other: when it takes the
    speed-up branch while the cursor is on no token (a new seeker, or a
    cursor past the last token), and then it leaves the seeker as it was;
    and when it takes the other branch with a line number that names no
    line, and then it has written [undefined] into [line] and left the
    other fields as they were. *)
Theorem setPos_throws_iff cm this args :
  (fst (setPos cm this args) = Throw <->
   (speeds_up cm this args = true /\ ~ on_token this) \/
   (speeds_up cm this args = false /\ names_no_line cm args)) /\
  (fst (setPos cm this args) = Throw ->
   snd (setPos cm this args) =
   if speeds_up cm this args then this else forget_line this).
Proof.
  assert (Hfast : forall c ch,
    (fst (speed_up c ch) = Throw <-> ~ on_token (Some c)) /\
    (fst (speed_up c ch) = Throw -> snd (speed_up c ch) = Some c)).
  { intros c ch. unfold speed_up, on_token.
    destruct (nth_error (lineTokens c) (i_token c)) as [t|] eqn:E; simpl.
    - split; [|discriminate]. split; [discriminate|].
      intros H. exfalso. apply H. eauto.
    - split; [|reflexivity]. split; [|reflexivity].
      intros _ (c' & t & [= <-] & H). congruence. }
  assert (Hnew : ~ on_token None) by (intros (c & t & H & _); discriminate).
  destruct args as [ch | l ch precise]; cbn [setPos speeds_up names_no_line].
  - destruct this as [c|]; cbn [fst snd].
    + destruct (Hfast c ch) as [H1 H2]. split; [|exact H2].
      rewrite H1. split; [auto | intros [[_ H]|[[=] _]]; exact H].
    + split; [|reflexivity]. split; [auto | reflexivity].
  - destruct precise; cbn [orb negb andb].
    + destruct (resolve cm l) as [h|]; cbn [fst snd].
      * split; [|discriminate].
        split; [discriminate | intros [[[=] _]|[_ [=]]]].
      * split; [|reflexivity]. split; [auto | reflexivity].
    + destruct (same_handle (resolve cm l) _) eqn:Es; cbn [negb].
      * destruct this as [c|]; cbn [fst snd].
        -- destruct (Hfast c ch) as [H1 H2]. split; [|exact H2].
           rewrite H1. split; [auto | intros [[_ H]|[[=] _]]; exact H].
        -- split; [|reflexivity]. split; [auto | reflexivity].
      * destruct (resolve cm l) as [h|]; cbn [fst snd].
        -- split; [|discriminate].
           split; [discriminate | intros [[[=] _]|[_ [=]]]].
        -- split; [|reflexivity]. split; [auto | reflexivity].
Qed.

(** X7. [setPos(line, ch, true)] returns when [line] is a handle or the
    number of a line. It leaves the seeker on that line with the line
    number and the tokens the editor has, and the cursor on the first token
    that ends after [ch]: every token before the cursor ends at or before
    [ch], and the cursor is the length of the list when no token ends
    after [ch]. The tokens need not obey the tokenizer contract. *)
Theorem setPos_precise_lands_on_first cm this l h ch :
  resolve cm l = Some h ->
  exists c,
    setPos cm this (LineCh l ch true) = (Return tt, Some c) /\
    line c = Some h /\ current cm c /\
    (forall j t, (j < i_token c)%nat -> nth_error (lineTokens c) j = Some t ->
                 end_ t <= ch) /\
    match nth_error (lineTokens c) (i_token c) with
    | Some t => ch < end_ t
    | None => i_token c = List.length (lineTokens c)
    end.
Proof.
  intros Hl. exists (refetch cm h ch).
  split; [cbn [setPos orb]; now rewrite Hl|]. split; [reflexivity|].
  split; [split; reflexivity|].
  unfold refetch, seek. cbn [lineTokens i_token].
  set (tokens := getLineTokens cm (lineNo_of cm h)).
  set (p := fun t : Token => end_ t >? ch).
  split.
  - intros j t Hj Hn.
    assert (Hp : p t = false)
      by (apply (for_break_skipped p tokens 0%nat j); [lia | exact Hn]).
    unfold p in Hp. zbool. lia.
  - destruct (for_break p tokens 0) as [i [t|]] eqn:E; cbn [fst].
    + apply for_break_found in E as (_ & -> & Hp). unfold p in Hp. zbool. lia.
    + apply for_break_none in E. subst i. simpl.
      now rewrite (proj2 (nth_error_None tokens (List.length tokens))).
Qed.

(** From a new seeker on [em_line], to offset 6 and to offset 20, past
    the end of the line. *)
Lemma setPos_precise_lands_on_first_witness :
  (exists c,
     setPos em_line None (LineCh (LineNumber 0) 6 true) = (Return tt, Some c) /\
     line c = Some 0%nat /\ current em_line c /\
     (forall j t, (j < i_token c)%nat -> nth_error (lineTokens c) j = Some t ->
                  end_ t <= 6) /\
     match nth_error (lineTokens c) (i_token c) with
     | Some t => 6 < end_ t
     | None => i_token c = List.length (lineTokens c)
     end) /\
  (exists c,
     setPos em_line None (LineCh (LineNumber 0) 20 true) = (Return tt, Some c) /\
     line c = Some 0%nat /\ current em_line c /\
     (forall j t, (j < i_token c)%nat -> nth_error (lineTokens c) j = Some t ->
                  end_ t <= 20) /\
     match nth_error (lineTokens c) (i_token c) with
     | Some t => 20 < end_ t
     | None => i_token c = List.length (lineTokens c)
     end).
Proof.
  split.
  - apply (setPos_precise_lands_on_first em_line None (LineNumber 0) 0%nat 6).
    reflexivity.
  - apply (setPos_precise_lands_on_first em_line None (LineNumber 0) 0%nat 20).
    reflexivity.
Defined.

(** X8. Moving forward is safe on any token list: when the cache is
    current, the cursor is on a token and is where a scan from the first
    token stops for [ch0], then [setPos] at a [ch >= ch0] on the tracked
    line gives with [precise = false] what it gives with [precise = true],
    whether or not the tokens obey the tokenizer contract. *)
Theorem setPos_forward_as_precise cm c l ch0 ch :
  current cm c -> resolve cm l = line c ->
  stopped_at c ch0 -> on_token (Some c) -> ch0 <= ch ->
  setPos cm (Some c) (LineCh l ch false) =
  setPos cm (Some c) (LineCh l ch true).
Proof.
  intros Hcur Hl Hstop (c' & t & [= <-] & Hn) Hle.
  rewrite (setPos_precise_current cm c l ch Hcur Hl),
          (setPos_OnlyCh cm c l ch Hl).
  cbn [setPos]. unfold speed_up. rewrite Hn.
  destruct (start t >? ch); [reflexivity|].
  do 2 f_equal. unfold seek. do 2 f_equal.
  symmetry. apply for_break_resume.
  - assert (i_token c < List.length (lineTokens c))%nat
      by (apply nth_error_Some; congruence). lia.
  - intros k u Hk Hu.
    assert (Hp : (end_ u >? ch0) = false).
    { apply (for_break_skipped (fun t => end_ t >? ch0) (lineTokens c) 0%nat k);
        [|exact Hu].
      unfold stopped_at in Hstop. rewrite <- Hstop. lia. }
    zbool. lia.
Qed.

(** On the overlapping tokens of [overlapping], from the cursor that
    [setPos(0, 6)] left, forward to 7. *)
Lemma setPos_forward_as_precise_witness :
  setPos overlapping (Some overlapping_cursor) (LineCh (LineNumber 0) 7 false) =
  setPos overlapping (Some overlapping_cursor) (LineCh (LineNumber 0) 7 true).
Proof.
  apply (setPos_forward_as_precise overlapping overlapping_cursor
           (LineNumber 0) 6 7).
  - split; reflexivity.
  - reflexivity.
  - reflexivity.
  - exists overlapping_cursor, (tok 0 9 "b"). split; reflexivity.
  - lia.
Defined.

(** X9. On a line that obeys the tokenizer contract moving in any
    direction is safe: when the cache is current and the cursor is on a
    token, [setPos] at any [ch] on the tracked line, before the cursor,
    after it or past the end of the line, gives with [precise = false] what
    it gives with [precise = true]. *)
Theorem setPos_any_direction_as_precise cm c l len ch :
  current cm c -> resolve cm l = line c ->
  covers 0 (lineTokens c) len = true -> on_token (Some c) ->
  setPos cm (Some c) (LineCh l ch false) =
  setPos cm (Some c) (LineCh l ch true).
Proof.
  intros Hcur Hl Hcov (c' & t & [= <-] & Hn).
  rewrite (setPos_precise_current cm c l ch Hcur Hl),
          (setPos_OnlyCh cm c l ch Hl).
  cbn [setPos].
  now rewrite (speed_up_seek c ch len Hcov)
    by (apply nth_error_Some; congruence).
Qed.

(** From the last token of [em_line] back to offset 1 and on to offset 20,
    past the end. *)
Lemma setPos_any_direction_as_precise_witness :
  setPos em_line (Some em_last) (LineCh (LineNumber 0) 1 false) =
  setPos em_line (Some em_last) (LineCh (LineNumber 0) 1 true) /\
  setPos em_line (Some em_last) (LineCh (LineNumber 0) 20 false) =
  setPos em_line (Some em_last) (LineCh (LineNumber 0) 20 true).
Proof.
  split.
  - apply (setPos_any_direction_as_precise em_line _ (LineNumber 0) 14 1).
    + split; reflexivity.
    + reflexivity.
    + reflexivity.
    + eexists _, (tok 10 14 "plain"). split; reflexivity.
  - apply (setPos_any_direction_as_precise em_line _ (LineNumber 0) 14 20).
    + split; reflexivity.
    + reflexivity.
    + reflexivity.
    + eexists _, (tok 10 14 "plain"). split; reflexivity.
Defined.

(** On a line that obeys the tokenizer contract one token at most contains
    a given offset. *)
Lemma covers_contains_unique a tokens b i j ti tj ch :
  covers a tokens b = true ->
  nth_error tokens i = Some ti -> contains ti ch ->
  nth_error tokens j = Some tj -> contains tj ch ->
  i = j.
Proof.
  intros Hc Hi [Hi1 Hi2] Hj [Hj1 Hj2].
  destruct (Nat.lt_trichotomy i j) as [Hlt | [Heq | Hgt]]; [|exact Heq|].
  - pose proof (covers_ordered a tokens b i j ti tj Hc Hlt Hi Hj). lia.
  - pose proof (covers_ordered a tokens b j i tj ti Hc Hgt Hj Hi). lia.
Qed.

(** X10. Continuing from a found token: on a line that obeys the tokenizer
    contract, with the cursor on a token, when [findNext(condition)]
    returns a token that is not empty, [setPos(token.start)] returns and
    moves the cursor to the index [findNext] returned, the other fields
    unchanged. *)
Theorem findNext_then_setPos cm c condition f len :
  covers 0 (lineTokens c) len = true -> on_token (Some c) ->
  returned (findNext cm (Some c) condition Omitted None) = Return (Some f) ->
  start (Found.token f) < end_ (Found.token f) ->
  setPos cm (Some c) (OnlyCh (start (Found.token f))) =
  (Return tt,
   Some (mkCursor (line c) (lineNo c) (lineTokens c) (Found.i_token f))).
Proof.
  intros Hcov (c' & t0 & [= <-] & Hn0) Hret Hne.
  assert (Hf : nth_error (lineTokens c) (Found.i_token f) = Some (Found.token f)).
  { unfold findNext in Hret. rewrite findNext_on_unfold in Hret.
    cbn zeta in Hret. unfold result_of in Hret.
    destruct (for_break (holds condition) (lineTokens c)
                (i_token_start c Omitted None)) as [i [t|]] eqn:E;
      cbn [fst snd returned v_token v_lineNo v_i_token] in Hret;
      [|discriminate].
    injection Hret as <-. cbn [Found.i_token Found.token].
    now apply for_break_found in E as (_ & E & _). }
  set (tf := Found.token f) in *. set (ch := start tf).
  destruct (covers_within 0 (lineTokens c) len _ tf Hcov Hf) as (H0 & _ & Hlen).
  assert (Hne' : lineTokens c <> [])
    by (intros E; rewrite E in Hn0; destruct (i_token c); discriminate).
  simpl. rewrite (speed_up_seek c ch len Hcov)
    by (apply nth_error_Some; congruence).
  destruct (scan_covers_found 0 (lineTokens c) len ch 0%nat Hcov Hne')
    as (j & u & E); [unfold ch; lia|].
  pose proof (scan_covers_contains 0 (lineTokens c) len ch 0%nat j u Hcov
                ltac:(unfold ch; lia) E) as Hu.
  destruct (for_break_found _ (lineTokens c) 0%nat j u E) as (_ & Hj & _).
  assert (j = Found.i_token f).
  { apply (covers_contains_unique 0 (lineTokens c) len j _ u tf ch); auto.
    unfold contains, ch. lia. }
  subst j. unfold seek, for_break. cbn [skipn]. now rewrite E.
Qed.

(** On [aba]: [findNext(/a/)] returns the third token, and
    [setPos(6)] moves the cursor there. *)
Lemma findNext_then_setPos_witness :
  setPos aba (Some aba_cursor) (OnlyCh 6) =
  (Return tt, Some (mkCursor (line aba_cursor) (lineNo aba_cursor)
                      (lineTokens aba_cursor) 2)).
Proof.
  apply (findNext_then_setPos aba aba_cursor re_a
           (Found.mk 0 (tok 6 9 "a") 2) 9).
  - reflexivity.
  - exists aba_cursor, (tok 0 3 "a"). split; reflexivity.
  - reflexivity.
  - simpl. lia.
Defined.

(** ** More on findNext *)

Section Iteration.
Variable cm : cm_t.
Variable condition : Condition.
Variable since : option Position.t.

(** What the callback does on a line: it stops with the first match of
    the line, or goes on when the line has none. *)
Lemma visit_cases n v :
  (exists i t,
     first_match cm condition since n i t /\
     visit cm condition since (getLine cm n) v =
     (true, mkVars (visited cm n) (getLineTokens cm (visited cm n)) (Some t) i
              (fetched v ++ [visited cm n]))) \/
  (no_match cm condition since n /\
   exists i,
     visit cm condition since (getLine cm n) v =
     (false, mkVars (visited cm n) (getLineTokens cm (visited cm n))
               (v_token v) i (fetched v ++ [visited cm n]))).
Proof.
  pose proof (visit_no_match cm condition since n v) as Hno.
  rewrite visit_unfold in *.
  destruct (for_break (holds condition) (getLineTokens cm (visited cm n)) _)
    as [i [t|]] eqn:E.
  - left. exists i, t. split; [|reflexivity].
    apply for_break_first in E as (Hle & Hn & Hp & Hskip).
    split; [exact Hn|]. split; [exact Hp|]. split.
    + now apply (first_of_le cm since n i t Hn).
    + intros j u Hj Hu Hal. apply (Hskip j u); [|exact Hu].
      split; [|exact Hj]. now apply (first_of_le cm since n j u Hu).
  - right. split; [apply Hno|]; eauto.
Qed.

(** The iteration over [count] lines from [n0]: it stops on the first line
    with a match, or visits them all; the trace grows by the lines
    visited. *)
Lemma eachLine_iter_cases count n0 v :
  (exists m i t,
     n0 <= m < n0 + Z.of_nat count /\
     (forall n, n0 <= n < m -> no_match cm condition since n) /\
     first_match cm condition since m i t /\
     eachLine_iter cm (visit cm condition since) count n0 v =
     mkVars (visited cm m) (getLineTokens cm (visited cm m)) (Some t) i
       (fetched v ++ map (visited cm) (lines_between n0 m))) \/
  ((forall n, n0 <= n < n0 + Z.of_nat count ->
              no_match cm condition since n) /\
   v_token (eachLine_iter cm (visit cm condition since) count n0 v) =
     v_token v /\
   fetched (eachLine_iter cm (visit cm condition since) count n0 v) =
     fetched v ++
     map (visited cm) (lines_between n0 (n0 + Z.of_nat count - 1))).
Proof.
  revert n0 v. induction count as [|count IH]; intros n0 v.
  - right. split; [intros n Hn; lia|]. split; [reflexivity|].
    unfold lines_between. replace (Z.to_nat _) with 0%nat by lia.
    simpl. now rewrite app_nil_r.
  - destruct (visit_cases n0 v) as [(i & t & Hm & Hv) | (Hno & i & Hv)].
    + left. exists n0, i, t. split; [lia|]. split; [intros n Hn; lia|].
      split; [exact Hm|].
      apply eachLine_iter_first_match; auto; try lia.
    + cbn [eachLine_iter]. rewrite Hv.
      destruct (IH (n0 + 1) (mkVars (visited cm n0)
                     (getLineTokens cm (visited cm n0)) (v_token v) i
                     (fetched v ++ [visited cm n0])))
        as [(m & j & t & Hm & Hbefore & Hfirst & Hres) | (Hall & Htok & Hlog)].
      * left. exists m, j, t. split; [lia|]. split.
        { intros n Hn. destruct (Z.eq_dec n n0) as [->|]; [exact Hno|].
          apply Hbefore. lia. }
        split; [exact Hfirst|]. rewrite Hres. cbn [fetched].
        rewrite (lines_between_cons n0 m) by lia. cbn [map].
        now rewrite <- app_assoc.
      * right. split.
        { intros n Hn. destruct (Z.eq_dec n n0) as [->|]; [exact Hno|].
          apply Hall. lia. }
        split; [exact Htok|]. rewrite Hlog. cbn [fetched].
        rewrite (lines_between_cons n0 (n0 + Z.of_nat (S count) - 1)) by lia.
        cbn [map]. rewrite <- app_assoc.
        replace (n0 + 1 + Z.of_nat count - 1)
          with (n0 + Z.of_nat (S count) - 1) by lia.
        reflexivity.
Qed.

End Iteration.

Lemma lines_between_nil a b : b < a -> lines_between a b = [].
Proof.
  intros H. unfold lines_between.
  now replace (Z.to_nat (b - a + 1)) with 0%nat by lia.
Qed.

Lemma lines_between_in a b n : In n (lines_between a b) -> a <= n <= b.
Proof.
  unfold lines_between. intros H. apply in_map_iff in H as (k & <- & Hk).
  apply in_seq in Hk. lia.
Qed.

(** In an editor in a consistent state the trace of an iteration is the
    list of the lines visited. *)
Lemma visited_lines_between cm a b :
  consistent_from cm a -> b <= lastLine cm ->
  map (visited cm) (lines_between a b) = lines_between a b.
Proof.
  intros Hcons Hb. rewrite <- (map_id (lines_between a b)) at 2.
  apply map_ext_in. intros n Hn. apply lines_between_in in Hn.
  apply Hcons. lia.
Qed.

(** The iteration of a search that spans lines, from the variables the
    scan of the tracked line left. *)
Lemma findNext_spanning_cases cm c condition since :
  let r := for_break (holds condition) (lineTokens c)
             (i_token_start c (MaySpanLines true) since) in
  let v := findNext_on cm c condition (MaySpanLines true) since in
  (exists t, snd r = Some t /\
             v = mkVars (lineNo c) (lineTokens c) (Some t) (fst r) []) \/
  (snd r = None /\
   ((exists m i t,
       startLine c since <= m <= lastLine cm /\
       (forall n, startLine c since <= n < m ->
                  no_match cm condition since n) /\
       first_match cm condition since m i t /\
       v = mkVars (visited cm m) (getLineTokens cm (visited cm m)) (Some t) i
             (map (visited cm) (lines_between (startLine c since) m))) \/
    ((forall n, startLine c since <= n <= lastLine cm ->
                no_match cm condition since n) /\
     v_token v = None /\
     fetched v =
       map (visited cm) (lines_between (startLine c since) (lastLine cm))))).
Proof.
  intros r v. unfold v. rewrite findNext_on_unfold. cbn zeta. fold r.
  destruct (snd r) as [t|] eqn:Er; [left; eauto|]. right. split; [reflexivity|].
  set (count := Z.to_nat (lastLine cm + 1 - startLine c since)).
  destruct (eachLine_iter_cases cm condition since count (startLine c since)
              (mkVars (lineNo c) (lineTokens c) None (fst r) []))
    as [(m & i & t & Hm & Hbefore & Hfirst & Hres) | (Hall & Htok & Hlog)].
  - left. exists m, i, t. split; [lia|]. split; [exact Hbefore|].
    split; [exact Hfirst|]. exact Hres.
  - right. split; [intros n Hn; apply Hall; lia|]. split; [exact Htok|].
    rewrite Hlog. cbn [fetched app].
    destruct (Z_lt_le_dec (lastLine cm) (startLine c since)) as [Hlt|Hle].
    + rewrite !lines_between_nil by lia. reflexivity.
    + now replace (startLine c since + Z.of_nat count - 1)
        with (lastLine cm) by lia.
Qed.

(** X11. What [findNext] returns is a token of the searched range that
    satisfies the condition, with its place: either a token of the cached
    list, at the index returned, under the tracked line's number, and then
    the editor was not asked for any tokens; or, for a search that may span
    lines, the first match of a line between [max(since.line, lineNo + 1)]
    and the last line, under the number that line's handle reports. *)
Theorem findNext_result_sound cm c condition varg since f :
  returned (findNext cm (Some c) condition varg since) = Return (Some f) ->
  holds condition (Found.token f) = true /\
  ((Found.lineNo f = lineNo c /\
    nth_error (lineTokens c) (Found.i_token f) = Some (Found.token f) /\
    searched_here c varg since (Found.i_token f) /\
    asked (findNext cm (Some c) condition varg since) = []) \/
   (varg = MaySpanLines true /\
    exists m,
      startLine c since <= m <= lastLine cm /\
      Found.lineNo f = visited cm m /\
      first_match cm condition since m (Found.i_token f) (Found.token f))).
Proof.
  unfold findNext. cbn [returned asked]. intros [= Hret].
  assert (Hhere : forall t,
    snd (for_break (holds condition) (lineTokens c)
           (i_token_start c varg since)) = Some t ->
    findNext_on cm c condition varg since =
      mkVars (lineNo c) (lineTokens c) (Some t)
        (fst (for_break (holds condition) (lineTokens c)
                (i_token_start c varg since))) [] ->
    holds condition (Found.token f) = true /\
    (Found.lineNo f = lineNo c /\
     nth_error (lineTokens c) (Found.i_token f) = Some (Found.token f) /\
     searched_here c varg since (Found.i_token f) /\
     fetched (findNext_on cm c condition varg since) = [])).
  { intros t Et Ev. rewrite Ev in Hret |- *. unfold result_of in Hret.
    cbn [v_token v_lineNo v_i_token] in Hret. injection Hret as <-.
    cbn [Found.lineNo Found.token Found.i_token fetched].
    destruct (for_break (holds condition) (lineTokens c)
                (i_token_start c varg since)) as [i o] eqn:E.
    cbn [fst snd] in *. subst o.
    destruct (for_break_found _ _ _ _ _ E) as (Hle & Hn & Hp).
    repeat split; auto.
    - now apply (i_token_start_le c varg since i t Hn).
    - now apply (i_token_start_le c varg since i t Hn).
    - now apply (i_token_start_le c varg since i t Hn). }
  assert (Hspan : varg = MaySpanLines true \/ varg <> MaySpanLines true)
    by (destruct varg as [|[|]|]; auto; right; discriminate).
  destruct Hspan as [-> | Hne].
  - destruct (findNext_spanning_cases cm c condition since)
      as [(t & Et & Ev) | (Er & [(m & i & t & Hm & _ & Hfirst & Ev)
                                | (_ & Htok & _)])].
    + destruct (Hhere t Et Ev) as (Hp & H). split; [exact Hp | now left].
    + rewrite Ev in Hret. unfold result_of in Hret.
      cbn [v_token v_lineNo v_i_token] in Hret. injection Hret as <-.
      cbn [Found.lineNo Found.token Found.i_token].
      split; [apply Hfirst|]. right. split; [reflexivity|].
      exists m. auto.
    + unfold result_of in Hret. rewrite Htok in Hret. discriminate.
  - pose proof (findNext_on_unfold cm c condition varg since) as Hu.
    cbn zeta in Hu.
    destruct (snd (for_break (holds condition) (lineTokens c)
                     (i_token_start c varg since))) as [t|] eqn:Et.
    + destruct (Hhere t eq_refl Hu) as (Hp & H). split; [exact Hp | now left].
    + assert (Hv : findNext_on cm c condition varg since =
                   mkVars (lineNo c) (lineTokens c) None
                     (fst (for_break (holds condition) (lineTokens c)
                             (i_token_start c varg since))) [])
        by (rewrite Hu; destruct varg as [|[|]|]; congruence || reflexivity).
      rewrite Hv in Hret. discriminate.
Qed.

(** The match of the multi-line example, with its place. *)
Lemma findNext_result_sound_witness :
  holds re_x (tok 2 5 "x") = true /\
  ((1 = lineNo three_lines_cursor /\
    nth_error (lineTokens three_lines_cursor) 1 = Some (tok 2 5 "x") /\
    searched_here three_lines_cursor (MaySpanLines true) None 1 /\
    asked (findNext three_lines (Some three_lines_cursor) re_x
             (MaySpanLines true) None) = []) \/
   (MaySpanLines true = MaySpanLines true /\
    exists m,
      startLine three_lines_cursor None <= m <= lastLine three_lines /\
      1 = visited three_lines m /\
      first_match three_lines re_x None m 1 (tok 2 5 "x"))).
Proof.
  apply (findNext_result_sound three_lines three_lines_cursor re_x
           (MaySpanLines true) None (Found.mk 1 (tok 2 5 "x") 1)).
  reflexivity.
Defined.

(** X12. [findNext(condition, i)] looks at the tracked line only, from
    index [i] on, the token at [i] included: it returns the first token at
    or after [i] that satisfies the condition, and [null] when there is
    none, as when [i] is past the last token; it never asks the editor for
    tokens. *)
Theorem findNext_from_index cm c condition i :
  exists r,
    findNext cm (Some c) condition (TokenSince i) None =
      mkOutcome (Return r) (Some c) [] /\
    match r with
    | Some f =>
        Found.lineNo f = lineNo c /\ (i <= Found.i_token f)%nat /\
        nth_error (lineTokens c) (Found.i_token f) = Some (Found.token f) /\
        holds condition (Found.token f) = true /\
        forall j u, (i <= j < Found.i_token f)%nat ->
                    nth_error (lineTokens c) j = Some u ->
                    holds condition u = false
    | None =>
        forall j u, (i <= j)%nat -> nth_error (lineTokens c) j = Some u ->
                    holds condition u = false
    end.
Proof.
  unfold findNext. rewrite findNext_on_unfold. cbn zeta.
  change (i_token_start c (TokenSince i) None) with i.
  destruct (for_break (holds condition) (lineTokens c) i) as [k [t|]] eqn:E;
    cbn [fst snd]; unfold result_of; cbn [v_token v_lineNo v_i_token fetched].
  - eexists. split; [reflexivity|].
    cbn [Found.lineNo Found.i_token Found.token].
    apply for_break_first in E as (Hle & Hn & Hp & Hskip).
    split; [reflexivity|]. split; [exact Hle|]. split; [exact Hn|].
    split; [exact Hp | exact Hskip].
  - eexists. split; [reflexivity|]. intros j u Hj.
    assert (Hnone : snd (for_break (holds condition) (lineTokens c) i) = None)
      by now rewrite E.
    now apply (proj1 (for_break_nothing _ _ _) Hnone).
Qed.

(** On a line whose number is not [since.line] the callback does what it
    does without [since]. *)
Lemma visit_off_since cm condition p h v :
  lineNo_of cm h <> Position.line p ->
  visit cm condition (Some p) h v = visit cm condition None h v.
Proof.
  intros Hne. unfold visit.
  now replace (lineNo_of cm h =? Position.line p) with false
    by (symmetry; apply Z.eqb_neq; exact Hne).
Qed.

Lemma eachLine_iter_off_since cm condition p count n0 v :
  (forall n, n0 <= n < n0 + Z.of_nat count ->
             visited cm n <> Position.line p) ->
  eachLine_iter cm (visit cm condition (Some p)) count n0 v =
  eachLine_iter cm (visit cm condition None) count n0 v.
Proof.
  revert n0 v. induction count as [|count IH]; intros n0 v Hoff;
    [reflexivity|].
  cbn [eachLine_iter]. rewrite visit_off_since by (apply Hoff; lia).
  destruct (visit cm condition None (getLine cm n0) v) as [[|] v'];
    [reflexivity|].
  apply IH. intros n Hn. apply Hoff. lia.
Qed.

(** X13. A [since] on a line before the tracked one is ignored: in an
    editor whose handles report their own line numbers, [findNext] with
    such a [since] does what it does without [since], whatever its second
    argument. *)
Theorem findNext_since_past cm c condition varg p :
  Position.line p < lineNo c -> 0 <= lineNo c ->
  consistent_from cm (lineNo c + 1) ->
  findNext cm (Some c) condition varg (Some p) =
  findNext cm (Some c) condition varg None.
Proof.
  intros Hpast Hno Hcons.
  assert (Hon : findNext_on cm c condition varg (Some p) =
                findNext_on cm c condition varg None).
  { rewrite !findNext_on_unfold. cbn zeta.
    assert (Hi : i_token_start c varg (Some p) = i_token_start c varg None).
    { unfold i_token_start.
      replace (Position.line p >? lineNo c) with false by (symmetry; zbool; lia).
      now replace (Position.line p <? lineNo c) with true
        by (symmetry; zbool; lia). }
    assert (Hs : startLine c (Some p) = lineNo c + 1 /\
                 startLine c None = lineNo c + 1)
      by (unfold startLine; lia).
    destruct Hs as [-> ->]. rewrite Hi.
    destruct (snd _); [reflexivity|]. destruct varg as [|[|]|]; try reflexivity.
    apply eachLine_iter_off_since. intros n Hn.
    rewrite Hcons by lia. lia. }
  unfold findNext. now rewrite Hon.
Qed.

(** From line 1 of [three_lines], a search that may span lines with a
    [since] on line 0. *)
Lemma findNext_since_past_witness :
  findNext three_lines (Some three_lines_second) re_x (MaySpanLines true)
    (Some (Position.mk 0 2)) =
  findNext three_lines (Some three_lines_second) re_x (MaySpanLines true) None.
Proof.
  apply (findNext_since_past three_lines three_lines_second re_x
           (MaySpanLines true) (Position.mk 0 2)).
  - simpl. lia.
  - simpl. lia.
  - intros n Hn. change (2 <= n <= 2) in Hn.
    change (Z.of_nat (Z.to_nat n) = n). lia.
Defined.

Lemma for_break_past_end (p : Token -> bool) tokens :
  for_break p tokens (List.length tokens) = (List.length tokens, None).
Proof. unfold for_break. now rewrite skipn_all. Qed.

(** X14. A [since] on a line after the tracked one makes [findNext] skip
    the tracked line: a search that may not span lines returns [null]
    without asking the editor, whatever the tokens of the tracked line, and
    what a search that may span lines returns is the first match of a line
    from [since.line] on. *)
Theorem findNext_since_future cm c condition varg p :
  lineNo c < Position.line p ->
  (varg <> MaySpanLines true ->
   findNext cm (Some c) condition varg (Some p) =
     mkOutcome (Return None) (Some c) []) /\
  (forall f,
     returned (findNext cm (Some c) condition varg (Some p)) =
       Return (Some f) ->
     exists m,
       Position.line p <= m <= lastLine cm /\
       Found.lineNo f = visited cm m /\
       first_match cm condition (Some p) m (Found.i_token f) (Found.token f)).
Proof.
  intros Hfut.
  assert (Hi : forall varg, i_token_start c varg (Some p) =
                            List.length (lineTokens c)).
  { intros w. unfold i_token_start.
    now replace (Position.line p >? lineNo c) with true
      by (symmetry; zbool; lia). }
  assert (Hplain : varg <> MaySpanLines true ->
            findNext_on cm c condition varg (Some p) =
            mkVars (lineNo c) (lineTokens c) None
              (List.length (lineTokens c)) []).
  { intros Hne. rewrite findNext_on_unfold. cbn zeta.
    rewrite Hi, for_break_past_end. cbn [fst snd].
    destruct varg as [|[|]|]; congruence || reflexivity. }
  split.
  - intros Hne. unfold findNext. now rewrite (Hplain Hne).
  - intros f. unfold findNext. cbn [returned]. intros [= Hret].
    assert (Hspan : varg = MaySpanLines true \/ varg <> MaySpanLines true)
      by (destruct varg as [|[|]|]; auto; right; discriminate).
    destruct Hspan as [-> | Hne]; [|rewrite (Hplain Hne) in Hret; discriminate].
    destruct (findNext_spanning_cases cm c condition (Some p))
      as [(t & Et & _) | (_ & [(m & i & t & Hm & _ & Hfirst & Ev)
                              | (_ & Htok & _)])].
    + rewrite Hi, for_break_past_end in Et. discriminate.
    + rewrite Ev in Hret. unfold result_of in Hret.
      cbn [v_token v_lineNo v_i_token] in Hret. injection Hret as <-.
      cbn [Found.lineNo Found.token Found.i_token].
      exists m. split; [unfold startLine in Hm; lia|]. auto.
    + unfold result_of in Hret. rewrite Htok in Hret. discriminate.
Qed.

(** On [aba], from the first token and with a [since] on line 2: a
    search that may not span lines returns [null], although the third
    token of the tracked line satisfies the condition. *)
Lemma findNext_since_future_witness :
  (MaySpanLines false <> MaySpanLines true ->
   findNext aba (Some aba_cursor) re_a (MaySpanLines false)
     (Some (Position.mk 2 0)) =
     mkOutcome (Return None) (Some aba_cursor) []) /\
  (forall f,
     returned (findNext aba (Some aba_cursor) re_a (MaySpanLines false)
                 (Some (Position.mk 2 0))) = Return (Some f) ->
     exists m,
       Position.line (Position.mk 2 0) <= m <= lastLine aba /\
       Found.lineNo f = visited aba m /\
       first_match aba re_a (Some (Position.mk 2 0)) m
         (Found.i_token f) (Found.token f)).
Proof.
  apply (findNext_since_future aba aba_cursor re_a (MaySpanLines false)
           (Position.mk 2 0)).
  simpl. lia.
Defined.

(** X15. A search that may span lines and finds nothing has asked the
    editor for the tokens of every line from [max(since.line, lineNo + 1)]
    to the last, each once and in increasing order, in an editor whose
    handles report their own line numbers. *)
Theorem findNext_spans_every_line cm c condition since :
  consistent_from cm (startLine c since) ->
  returned (findNext cm (Some c) condition (MaySpanLines true) since) =
    Return None ->
  asked (findNext cm (Some c) condition (MaySpanLines true) since) =
  lines_between (startLine c since) (lastLine cm).
Proof.
  intros Hcons. unfold findNext. cbn [returned asked]. intros [= Hret].
  destruct (findNext_spanning_cases cm c condition since)
    as [(t & _ & Ev) | (_ & [(m & i & t & _ & _ & _ & Ev)
                            | (_ & _ & Hlog)])].
  - rewrite Ev in Hret. discriminate.
  - rewrite Ev in Hret. discriminate.
  - rewrite Hlog. apply visited_lines_between; [exact Hcons | lia].
Qed.

(** On [three_lines], a search for [a] after the only token of line 0
    asks for line 1, then for line 2. *)
Lemma findNext_spans_every_line_witness :
  asked (findNext three_lines (Some three_lines_cursor) re_a
           (MaySpanLines true) None) =
  lines_between 1 2.
Proof.
  apply (findNext_spans_every_line three_lines three_lines_cursor re_a None).
  - intros n Hn. change (1 <= n <= 2) in Hn.
    change (Z.of_nat (Z.to_nat n) = n). lia.
  - reflexivity.
Defined.

(** ** More on expandRange *)

Section Runs.
Variable p : Token -> bool.

(** The loop to the right goes through the tokens that pass the test and
    stops before the first that fails it. *)
Lemma extend_right_run rest x :
  exists n,
    (n <= List.length rest)%nat /\
    (forall j u, (j < n)%nat -> nth_error rest j = Some u -> p u = true) /\
    (forall u, nth_error rest n = Some u -> p u = false) /\
    match n with
    | O => extend_right p rest x = x
    | S k => exists u, nth_error rest k = Some u /\
                       extend_right p rest x = end_ u
    end.
Proof.
  revert x. induction rest as [|t rest IH]; intros x.
  - exists 0%nat. simpl. split; [lia|]. split; [intros j u Hj; lia|].
    split; [discriminate | reflexivity].
  - simpl. destruct (p t) eqn:Ep.
    + destruct (IH (end_ t)) as (n & Hn & Hall & Hstop & Hres).
      exists (S n). split; [simpl; lia|]. split.
      { intros [|j] u Hj; simpl; [now intros [= <-] | apply Hall; lia]. }
      split; [exact Hstop|].
      destruct n as [|k]; [exists t; auto|].
      destruct Hres as (u & Hu & Hres). exists u. auto.
    + exists 0%nat. split; [lia|]. split; [intros j u Hj; lia|].
      split; [now intros u [= <-] | reflexivity].
Qed.

(** The loop to the left goes down through the tokens that pass the test
    and stops on the first that fails it. *)
Lemma extend_left_run tokens i d :
  (i < List.length tokens)%nat ->
  (extend_left p tokens i d = d /\
   forall j u, (j <= i)%nat -> nth_error tokens j = Some u -> p u = true) \/
  (exists j t,
     (j <= i)%nat /\ nth_error tokens j = Some t /\ p t = false /\
     extend_left p tokens i d = end_ t /\
     forall k u, (j < k <= i)%nat -> nth_error tokens k = Some u ->
                 p u = true).
Proof.
  induction i as [|i IH]; intros Hi; cbn [extend_left].
  - destruct (nth_error tokens 0) as [t|] eqn:E;
      [|apply nth_error_None in E; lia].
    destruct (p t) eqn:Ep; cbn [negb].
    + left. split; [reflexivity|]. intros j u Hj.
      replace j with 0%nat by lia. congruence.
    + right. exists 0%nat, t. repeat split; auto. intros k u Hk. lia.
  - destruct (nth_error tokens (S i)) as [t|] eqn:E;
      [|apply nth_error_None in E; lia].
    destruct (p t) eqn:Ep; cbn [negb].
    + destruct (IH ltac:(lia)) as [(Hd & Hall) | (j & u & Hj & Hu & Hp & Hres & Hall)].
      * left. split; [exact Hd|]. intros j u Hj Hu.
        destruct (Nat.eq_dec j (S i)) as [->|]; [congruence|].
        apply (Hall j); [lia | exact Hu].
      * right. exists j, u. repeat split; auto. intros k v Hk Hv.
        destruct (Nat.eq_dec k (S i)) as [->|]; [congruence|].
        apply (Hall k); [lia | exact Hv].
    + right. exists (S i), t. repeat split; auto. intros k u Hk. lia.
Qed.

End Runs.

(** The range when the token the first loop stops on passes the test: it
    is a maximal run of tokens that pass around that token; it starts at 0
    or at the end of the token before the run, which fails the test, ends
    at the end of the last token of the run, and the token after the run,
    if any, fails the test. *)
Lemma range_with_run p cm pos i ts :
  let tokens := getLineTokens cm (Position.line pos) in
  nth_error tokens i = Some ts ->
  Position.ch pos <= end_ ts ->
  (forall j u, (j < i)%nat -> nth_error tokens j = Some u ->
               end_ u < Position.ch pos) ->
  p ts = true ->
  exists lo hi from_ch to_ch,
    (lo <= i <= hi)%nat /\
    range_with p cm pos =
      Some (Range.mk (Position.mk (Position.line pos) from_ch)
              (Position.mk (Position.line pos) to_ch)) /\
    (forall j u, (lo <= j <= hi)%nat -> nth_error tokens j = Some u ->
                 p u = true) /\
    match lo with
    | O => from_ch = 0
    | S l => exists u, nth_error tokens l = Some u /\
                       p u = false /\ from_ch = end_ u
    end /\
    (exists u, nth_error tokens hi = Some u /\ to_ch = end_ u) /\
    (forall u, nth_error tokens (S hi) = Some u -> p u = false).
Proof.
  intros tokens Hi Hge Hbefore Hp.
  assert (E : for_break (fun t => end_ t >=? Position.ch pos) tokens 0 =
              (i, Some ts)).
  { apply for_break_first. split; [lia|]. split; [exact Hi|].
    split; [zbool; lia|]. intros k u Hk Hu.
    specialize (Hbefore k u ltac:(lia) Hu). zbool. lia. }
  rewrite expandRange_unfold. cbn zeta. fold tokens. rewrite E.
  assert (Hlt : (i < List.length tokens)%nat)
    by (apply nth_error_Some; congruence).
  destruct (extend_right_run p (skipn i tokens) (Position.ch pos))
    as (n & Hn & Hall & Hstop & Hres).
  destruct n as [|n].
  { specialize (Hstop ts). rewrite nth_error_skipn, Nat.add_0_r in Hstop.
    rewrite (Hstop Hi) in Hp. discriminate. }
  destruct Hres as (uh & Huh & Hto). rewrite nth_error_skipn in Huh.
  assert (Hright : forall j u, (i <= j <= i + n)%nat ->
            nth_error tokens j = Some u -> p u = true).
  { intros j u Hj Hu. apply (Hall (j - i)%nat u); [lia|].
    rewrite nth_error_skipn. now replace (i + (j - i))%nat with j by lia. }
  assert (Hafter : forall u, nth_error tokens (S (i + n)) = Some u ->
                             p u = false).
  { intros u Hu. apply Hstop. rewrite nth_error_skipn.
    now replace (i + S n)%nat with (S (i + n)) by lia. }
  destruct (extend_left_run p tokens i 0 Hlt)
    as [(Hd & Hleft) | (j & tj & Hj & Htj & Hpj & Hfrom & Hleft)].
  - exists 0%nat, (i + n)%nat, 0, (end_ uh).
    split; [lia|]. split; [now rewrite Hd, Hto|]. split.
    { intros k u Hk Hu. destruct (Nat.le_gt_cases k i).
      - now apply (Hleft k u).
      - apply (Hright k u); [lia | exact Hu]. }
    split; [reflexivity|]. split; [eauto | exact Hafter].
  - assert (j <> i) by (intros ->; congruence).
    exists (S j), (i + n)%nat, (end_ tj), (end_ uh).
    split; [lia|]. split; [now rewrite Hfrom, Hto|]. split.
    { intros k u Hk Hu. destruct (Nat.le_gt_cases k i).
      - apply (Hleft k u); [lia | exact Hu].
      - apply (Hright k u); [lia | exact Hu]. }
    split; [eauto|]. split; [eauto | exact Hafter].
Qed.

(** The range when the token the first loop stops on fails the test. *)
Lemma range_with_off_style p cm pos i ts :
  let tokens := getLineTokens cm (Position.line pos) in
  nth_error tokens i = Some ts ->
  Position.ch pos <= end_ ts ->
  (forall j u, (j < i)%nat -> nth_error tokens j = Some u ->
               end_ u < Position.ch pos) ->
  p ts = false ->
  range_with p cm pos =
  Some (Range.mk (Position.mk (Position.line pos) (end_ ts))
          (Position.mk (Position.line pos) (Position.ch pos))).
Proof.
  intros tokens Hi Hge Hbefore Hp.
  assert (E : for_break (fun t => end_ t >=? Position.ch pos) tokens 0 =
              (i, Some ts)).
  { apply for_break_first. split; [lia|]. split; [exact Hi|].
    split; [zbool; lia|]. intros k u Hk Hu.
    specialize (Hbefore k u ltac:(lia) Hu). zbool. lia. }
  rewrite expandRange_unfold. cbn zeta. fold tokens. rewrite E.
  rewrite (skipn_nth_error_cons tokens i ts Hi). cbn [extend_right].
  rewrite Hp. do 3 f_equal.
  destruct i; cbn [extend_left]; rewrite Hi, Hp; reflexivity.
Qed.

(** The first loop stops on a token when there is a range. *)
Lemma range_with_some p cm pos r :
  range_with p cm pos = Some r ->
  exists i ts,
    nth_error (getLineTokens cm (Position.line pos)) i = Some ts /\
    Position.ch pos <= end_ ts /\
    forall j u, (j < i)%nat ->
                nth_error (getLineTokens cm (Position.line pos)) j = Some u ->
                end_ u < Position.ch pos.
Proof.
  rewrite expandRange_unfold. cbn zeta.
  destruct (for_break _ (getLineTokens cm (Position.line pos)) 0)
    as [i [ts|]] eqn:E; [|discriminate].
  intros _. exists i, ts. apply for_break_first in E as (_ & Hi & Hp & Hskip).
  split; [exact Hi|]. split; [zbool; lia|].
  intros j u Hj Hu. specialize (Hskip j u ltac:(lia) Hu). zbool. lia.
Qed.

(** What [expandRange] returned, in terms of the pattern it built. *)
Lemma expandRange_returned js cm pos style re r :
  styleRE js style = Some re ->
  expandRange js cm pos style = Return r ->
  range_with (test_type re) cm pos = r.
Proof.
  intros Hre. rewrite (expandRange_compiled js cm pos style re Hre).
  now intros [= ->].
Qed.

(** X16. Every character of the range [expandRange] returns has the
    style: on a line whose tokens are contiguous, a character at or after
    [from.ch] and before [to.ch] lies in a token whose type passes the
    test of the pattern built from the style, whether or not the character
    at [pos] had the style. *)
Theorem expandRange_all_styled js cm pos style re a len r k t x :
  styleRE js style = Some re ->
  covers a (getLineTokens cm (Position.line pos)) len = true ->
  expandRange js cm pos style = Return (Some r) ->
  Position.ch (Range.from r) <= x < Position.ch (Range.to r) ->
  nth_error (getLineTokens cm (Position.line pos)) k = Some t ->
  contains t x ->
  test_type re t = true.
Proof.
  intros Hre Hcov Hr Hx Hk [Hx1 Hx2].
  apply (expandRange_returned js cm pos style re _ Hre) in Hr.
  set (p := test_type re) in *.
  destruct (range_with_some p cm pos r Hr) as (i & ts & Hi & Hge & Hbefore).
  set (tokens := getLineTokens cm (Position.line pos)) in *.
  destruct (p ts) eqn:Ep.
  - destruct (range_with_run p cm pos i ts Hi Hge Hbefore Ep)
      as (lo & hi & from_ch & to_ch & Hlh & Hres & Hrun & Hlo & (uh & Huh & Hto) & _).
    fold tokens in Hrun, Hlo, Huh.
    rewrite Hres in Hr. injection Hr as <-.
    cbn [Range.from Range.to Position.ch] in Hx.
    apply (Hrun k t); [|exact Hk]. split.
    + destruct lo as [|l]; [lia|]. destruct Hlo as (ul & Hul & _ & Hfrom).
      destruct (Nat.le_gt_cases (S l) k) as [|Hgt]; [assumption|].
      destruct (Nat.eq_dec k l) as [->|Hne].
      * assert (t = ul) by congruence. subst ul. lia.
      * pose proof (covers_ordered a tokens len k l t ul Hcov ltac:(lia) Hk Hul).
        destruct (covers_within a tokens len l ul Hcov Hul). lia.
    + destruct (Nat.le_gt_cases k hi) as [|Hgt]; [assumption|].
      pose proof (covers_ordered a tokens len hi k uh t Hcov Hgt Huh Hk). lia.
  - rewrite (range_with_off_style p cm pos i ts Hi Hge Hbefore Ep) in Hr.
    injection Hr as <-. cbn [Range.from Range.to Position.ch] in Hx. lia.
Qed.

(** Character 3 of the range of [em_line] around offset 6. *)
Lemma expandRange_all_styled_witness :
  test_type em_re (tok 0 4 "em") = true.
Proof.
  apply (expandRange_all_styled no_other em_line (Position.mk 0 6) "em" em_re
           0 14 (Range.mk (Position.mk 0 0) (Position.mk 0 10)) 0
           (tok 0 4 "em") 3).
  - reflexivity.
  - reflexivity.
  - reflexivity.
  - simpl. lia.
  - reflexivity.
  - unfold contains. simpl. lia.
Defined.

(** X17. The assumption that the character at [pos] has the style is not
    checked: on a line whose tokens are contiguous, when [pos.ch] is
    inside a token whose type fails the test of the pattern built from the
    style, or at its end, [expandRange] returns the range from the end of
    that token to [pos.ch], whose [from] is not before its [to]. *)
Theorem expandRange_assumption_unchecked js cm pos style re a len k t :
  styleRE js style = Some re ->
  covers a (getLineTokens cm (Position.line pos)) len = true ->
  nth_error (getLineTokens cm (Position.line pos)) k = Some t ->
  start t < Position.ch pos <= end_ t ->
  test_type re t = false ->
  expandRange js cm pos style =
    Return (Some (Range.mk (Position.mk (Position.line pos) (end_ t))
                    (Position.mk (Position.line pos) (Position.ch pos)))) /\
  Position.ch pos <= end_ t.
Proof.
  intros Hre Hcov Hk Hin Hp. split; [|lia].
  rewrite (expandRange_compiled js cm pos style re Hre). f_equal.
  apply (range_with_off_style (test_type re) cm pos k t Hk); [lia | | exact Hp].
  intros j u Hj Hu.
  pose proof (covers_ordered a _ len j k u t Hcov Hj Hu Hk). lia.
Qed.

(** Offset 12 of [em_line], inside the token [plain], for the style
    [em]. *)
Lemma expandRange_assumption_unchecked_witness :
  expandRange no_other em_line (Position.mk 0 12) "em" =
    Return (Some (Range.mk (Position.mk 0 14) (Position.mk 0 12))) /\
  12 <= 14.
Proof.
  apply (expandRange_assumption_unchecked no_other em_line (Position.mk 0 12)
           "em" em_re 0 14 2 (tok 10 14 "plain")).
  - reflexivity.
  - reflexivity.
  - reflexivity.
  - simpl. lia.
  - reflexivity.
Defined.

(** X18. When the first token that ends at or after [pos.ch] passes the
    test of the pattern built from the style, the range is the maximal run
    of tokens that pass it around that token, whatever the tokens are:
    every token of the run passes the test; [from.ch] is 0 when the run
    starts the line and else the end of the token before the run, which
    fails the test; [to.ch] is the end of the last token of the run; the
    token after the run, if any, fails the test. *)
Theorem expandRange_maximal_run js cm pos style re i ts :
  styleRE js style = Some re ->
  nth_error (getLineTokens cm (Position.line pos)) i = Some ts ->
  Position.ch pos <= end_ ts ->
  (forall j u, (j < i)%nat ->
               nth_error (getLineTokens cm (Position.line pos)) j = Some u ->
               end_ u < Position.ch pos) ->
  test_type re ts = true ->
  exists lo hi from_ch to_ch,
    (lo <= i <= hi)%nat /\
    expandRange js cm pos style =
      Return (Some (Range.mk (Position.mk (Position.line pos) from_ch)
                      (Position.mk (Position.line pos) to_ch))) /\
    (forall j u, (lo <= j <= hi)%nat ->
                 nth_error (getLineTokens cm (Position.line pos)) j = Some u ->
                 test_type re u = true) /\
    match lo with
    | O => from_ch = 0
    | S l => exists u,
               nth_error (getLineTokens cm (Position.line pos)) l = Some u /\
               test_type re u = false /\ from_ch = end_ u
    end /\
    (exists u, nth_error (getLineTokens cm (Position.line pos)) hi = Some u /\
               to_ch = end_ u) /\
    (forall u, nth_error (getLineTokens cm (Position.line pos)) (S hi) = Some u ->
               test_type re u = false).
Proof.
  intros Hre Hi Hge Hbefore Hp.
  destruct (range_with_run (test_type re) cm pos i ts Hi Hge Hbefore Hp)
    as (lo & hi & from_ch & to_ch & Hlh & Hres & Hrest).
  exists lo, hi, from_ch, to_ch. split; [exact Hlh|]. split; [|exact Hrest].
  rewrite (expandRange_compiled js cm pos style re Hre). now rewrite Hres.
Qed.

(** The run of [em_line] around offset 6, for the style [em]. *)
Lemma expandRange_maximal_run_witness :
  exists lo hi from_ch to_ch,
    (lo <= 1 <= hi)%nat /\
    expandRange no_other em_line (Position.mk 0 6) "em" =
      Return (Some (Range.mk (Position.mk 0 from_ch) (Position.mk 0 to_ch))) /\
    (forall j u, (lo <= j <= hi)%nat ->
                 nth_error (getLineTokens em_line 0) j = Some u ->
                 test_type em_re u = true) /\
    match lo with
    | O => from_ch = 0
    | S l => exists u,
               nth_error (getLineTokens em_line 0) l = Some u /\
               test_type em_re u = false /\ from_ch = end_ u
    end /\
    (exists u, nth_error (getLineTokens em_line 0) hi = Some u /\
               to_ch = end_ u) /\
    (forall u, nth_error (getLineTokens em_line 0) (S hi) = Some u ->
               test_type em_re u = false).
Proof.
  apply (expandRange_maximal_run no_other em_line (Position.mk 0 6) "em" em_re
           1 (tok 4 10 "em strong")).
  - reflexivity.
  - reflexivity.
  - simpl. lia.
  - intros j u Hj. destruct j as [|j]; [|lia].
    intros [= <-]. simpl. lia.
  - reflexivity.
Defined.

(** X19. Expanding again from inside the range gives the same range: on a
    line whose tokens are contiguous, when the first token that ends at or
    after [pos.ch] passes the test of the pattern built from the style and
    [expandRange] returns a range, it returns that range for every offset
    after [from.ch] and up to [to.ch]. *)
Theorem expandRange_stable js cm pos style re a len i ts r x :
  styleRE js style = Some re ->
  covers a (getLineTokens cm (Position.line pos)) len = true ->
  nth_error (getLineTokens cm (Position.line pos)) i = Some ts ->
  Position.ch pos <= end_ ts ->
  (forall j u, (j < i)%nat ->
               nth_error (getLineTokens cm (Position.line pos)) j = Some u ->
               end_ u < Position.ch pos) ->
  test_type re ts = true ->
  expandRange js cm pos style = Return (Some r) ->
  Position.ch (Range.from r) < x <= Position.ch (Range.to r) ->
  expandRange js cm (Position.mk (Position.line pos) x) style = Return (Some r).
Proof.
  intros Hre Hcov Hi Hge Hbefore Hp Hr Hx.
  apply (expandRange_returned js cm pos style re _ Hre) in Hr.
  rewrite (expandRange_compiled js cm _ style re Hre). f_equal.
  set (p := test_type re) in *.
  destruct (range_with_run p cm pos i ts Hi Hge Hbefore Hp)
    as (lo & hi & from_ch & to_ch & Hlh & Hres & Hrun & Hlo
        & (uh & Huh & Hto) & Hafter).
  rewrite Hres in Hr. injection Hr as <-.
  cbn [Range.from Range.to Position.ch] in Hx.
  set (tokens := getLineTokens cm (Position.line pos)) in *.
  set (pos' := Position.mk (Position.line pos) x).
  (* the first token that ends at or after [x] is in the run *)
  set (q := fun t : Token => end_ t >=? x).
  destruct (for_break q tokens 0) as [i' [ts'|]] eqn:E'.
  2:{ assert (Hq : q uh = false).
      { apply (proj1 (for_break_nothing q tokens 0%nat)) with hi;
          [now rewrite E' | lia | exact Huh]. }
      unfold q in Hq. zbool. lia. }
  apply for_break_first in E' as (_ & Hi' & Hq' & Hskip').
  assert (Hge' : x <= end_ ts') by (unfold q in Hq'; zbool; lia).
  assert (Hbefore' : forall j u, (j < i')%nat -> nth_error tokens j = Some u ->
                                 end_ u < x).
  { intros j u Hj Hu. specialize (Hskip' j u ltac:(lia) Hu).
    unfold q in Hskip'. zbool. lia. }
  assert (Hhi : (i' <= hi)%nat).
  { destruct (Nat.le_gt_cases i' hi) as [|Hgt]; [assumption|].
    specialize (Hbefore' hi uh Hgt Huh). lia. }
  assert (Hlo' : (lo <= i')%nat).
  { destruct lo as [|l]; [lia|]. destruct Hlo as (ul & Hul & _ & Hfrom).
    destruct (Nat.le_gt_cases (S l) i') as [|Hgt]; [assumption|].
    destruct (Nat.eq_dec i' l) as [->|Hne].
    - assert (ts' = ul) by congruence. subst ul. lia.
    - pose proof (covers_ordered a tokens len i' l ts' ul Hcov ltac:(lia) Hi' Hul).
      destruct (covers_within a tokens len l ul Hcov Hul). lia. }
  assert (Hp' : p ts' = true) by (apply (Hrun i' ts'); [lia | exact Hi']).
  destruct (range_with_run p cm pos' i' ts' Hi' Hge' Hbefore' Hp')
    as (lo' & hi' & from' & to' & Hlh' & Hres' & Hrun' & Hlo2
        & (uh' & Huh' & Hto') & Hafter').
  cbn [pos' Position.line] in Hres', Hrun', Hlo2, Huh', Hafter'.
  fold tokens in Hrun', Hlo2, Huh', Hafter'.
  rewrite Hres'. cbn [pos' Position.line].
  (* a token with an index below that of a token exists *)
  assert (Hex : forall j k u, (j <= k)%nat -> nth_error tokens k = Some u ->
                              exists v, nth_error tokens j = Some v).
  { intros j k u Hjk Hu.
    destruct (nth_error tokens j) as [v|] eqn:Ev; [eauto|].
    apply nth_error_None in Ev.
    assert (k < List.length tokens)%nat by (apply nth_error_Some; congruence).
    lia. }
  (* two maximal runs around a common token are the same run *)
  assert (Elo : lo' = lo).
  { destruct (Nat.lt_trichotomy lo' lo) as [Hlt | [Heq | Hgt]]; [|exact Heq|].
    - destruct lo as [|l]; [lia|]. destruct Hlo as (ul & Hul & Hpl & _).
      rewrite (Hrun' l ul ltac:(lia) Hul) in Hpl. discriminate.
    - destruct lo' as [|l']; [lia|]. destruct Hlo2 as (ul & Hul & Hpl & _).
      rewrite (Hrun l' ul ltac:(lia) Hul) in Hpl. discriminate. }
  assert (Ehi : hi' = hi).
  { destruct (Nat.lt_trichotomy hi' hi) as [Hlt | [Heq | Hgt]]; [|exact Heq|].
    - destruct (Hex (S hi') hi uh ltac:(lia) Huh) as (v & Hv).
      pose proof (Hafter' v Hv) as Hf.
      rewrite (Hrun (S hi') v ltac:(lia) Hv) in Hf. discriminate.
    - destruct (Hex (S hi) hi' uh' ltac:(lia) Huh') as (v & Hv).
      pose proof (Hafter v Hv) as Hf.
      rewrite (Hrun' (S hi) v ltac:(lia) Hv) in Hf. discriminate. }
  subst lo' hi'.
  assert (Eto : to' = to_ch) by congruence.
  assert (Efrom : from' = from_ch).
  { destruct lo as [|l]; [congruence|].
    destruct Hlo as (u1 & Hu1 & _ & ->), Hlo2 as (u2 & Hu2 & _ & ->).
    congruence. }
  rewrite Eto, Efrom. reflexivity.
Qed.

(** On [em_line], the range around offset 6 is also the range around
    offset 2. *)
Lemma expandRange_stable_witness :
  expandRange no_other em_line (Position.mk 0 2) "em" =
  Return (Some (Range.mk (Position.mk 0 0) (Position.mk 0 10))).
Proof.
  apply (expandRange_stable no_other em_line (Position.mk 0 6) "em" em_re 0 14
           1 (tok 4 10 "em strong")
           (Range.mk (Position.mk 0 0) (Position.mk 0 10)) 2).
  - reflexivity.
  - reflexivity.
  - reflexivity.
  - simpl. lia.
  - intros j u Hj. destruct j as [|j]; [|lia].
    intros [= <-]. simpl. lia.
  - reflexivity.
  - reflexivity.
  - simpl. lia.
Defined.

(** ** Styles without pattern syntax *)

(** X21. For a style with no character of pattern syntax: when the tokens
    of the line are contiguous, from an offset that is not negative, and
    [pos.ch] lies inside a token whose type has [style] among its
    whitespace-separated tags, [expandRange] returns a range on the line
    of [pos], with [from.ch <= pos.ch <= to.ch], where [from.ch] is 0 or
    the end of a token and [to.ch] is the end of a token. *)
Theorem expandRange_bounds js cm pos style a len k t s :
  plain style = true ->
  covers a (getLineTokens cm (Position.line pos)) len = true -> 0 <= a ->
  nth_error (getLineTokens cm (Position.line pos)) k = Some t ->
  contains t (Position.ch pos) ->
  type t = Some s -> has_tag style s = true ->
  exists r,
    expandRange js cm pos style = Return (Some r) /\
    Position.line (Range.from r) = Position.line pos /\
    Position.line (Range.to r) = Position.line pos /\
    Position.ch (Range.from r) <= Position.ch pos <= Position.ch (Range.to r) /\
    (Position.ch (Range.from r) = 0 \/
     token_end (getLineTokens cm (Position.line pos))
       (Position.ch (Range.from r))) /\
    token_end (getLineTokens cm (Position.line pos)) (Position.ch (Range.to r)).
Proof.
  intros Hplain Hcov Ha Hk Hin Hty Htag.
  destruct (styleRE_plain_tag js style Hplain (has_tag_is_tag style s Htag))
    as (re & Hre & Htest).
  assert (Hp : test_type re t = true).
  { rewrite Htest. unfold type_string. now rewrite Hty. }
  destruct (range_with_bounds (test_type re) cm pos a len k t Hcov Ha Hk Hin Hp)
    as (r & Hr & Hrest).
  exists r. split; [|exact Hrest].
  rewrite (expandRange_compiled js cm pos style re Hre). now rewrite Hr.
Qed.

(** The bounds at offset 6 of [em_line], for the style [em]. *)
Lemma expandRange_bounds_witness :
  exists r,
    expandRange no_other em_line (Position.mk 0 6) "em" = Return (Some r) /\
    Position.line (Range.from r) = 0 /\
    Position.line (Range.to r) = 0 /\
    Position.ch (Range.from r) <= 6 <= Position.ch (Range.to r) /\
    (Position.ch (Range.from r) = 0 \/
     token_end (getLineTokens em_line 0) (Position.ch (Range.from r))) /\
    token_end (getLineTokens em_line 0) (Position.ch (Range.to r)).
Proof.
  apply (expandRange_bounds no_other em_line (Position.mk 0 6) "em" 0 14 1%nat
           (tok 4 10 "em strong") "em strong").
  - reflexivity.
  - reflexivity.
  - lia.
  - reflexivity.
  - unfold contains. simpl. lia.
  - reflexivity.
  - reflexivity.
Defined.

(** X22. For a style with no character of pattern syntax that is a tag,
    [expandRange] goes by membership in the whitespace-separated tags of
    the types, not by occurrence: when the first token that ends at or
    after [pos.ch] has the tag, the range is the maximal run of tokens
    that have the tag around it; [from.ch] is 0 when the run starts the
    line and else the end of the token before the run, which has not the
    tag; [to.ch] is the end of the last token of the run; the token after
    the run, if any, has not the tag. *)
Theorem expandRange_run_of_tag js cm pos style i ts :
  plain style = true -> is_tag style = true ->
  nth_error (getLineTokens cm (Position.line pos)) i = Some ts ->
  Position.ch pos <= end_ ts ->
  (forall j u, (j < i)%nat ->
               nth_error (getLineTokens cm (Position.line pos)) j = Some u ->
               end_ u < Position.ch pos) ->
  has_tag style (type_string ts) = true ->
  exists lo hi from_ch to_ch,
    (lo <= i <= hi)%nat /\
    expandRange js cm pos style =
      Return (Some (Range.mk (Position.mk (Position.line pos) from_ch)
                      (Position.mk (Position.line pos) to_ch))) /\
    (forall j u, (lo <= j <= hi)%nat ->
                 nth_error (getLineTokens cm (Position.line pos)) j = Some u ->
                 has_tag style (type_string u) = true) /\
    match lo with
    | O => from_ch = 0
    | S l => exists u,
               nth_error (getLineTokens cm (Position.line pos)) l = Some u /\
               has_tag style (type_string u) = false /\ from_ch = end_ u
    end /\
    (exists u, nth_error (getLineTokens cm (Position.line pos)) hi = Some u /\
               to_ch = end_ u) /\
    (forall u, nth_error (getLineTokens cm (Position.line pos)) (S hi) = Some u ->
               has_tag style (type_string u) = false).
Proof.
  intros Hplain Htag Hi Hge Hbefore Hp.
  destruct (styleRE_plain_tag js style Hplain Htag) as (re & Hre & Htest).
  rewrite <- Htest in Hp.
  destruct (range_with_run (test_type re) cm pos i ts Hi Hge Hbefore Hp)
    as (lo & hi & from_ch & to_ch & Hlh & Hres & Hrun & Hlo & Hhi & Hafter).
  exists lo, hi, from_ch, to_ch. split; [exact Hlh|].
  split; [rewrite (expandRange_compiled js cm pos style re Hre);
          now rewrite Hres|].
  split; [intros j u Hj Hu; rewrite <- Htest; now apply (Hrun j u)|].
  split.
  { destruct lo as [|l]; [exact Hlo|]. destruct Hlo as (u & Hu & Hpu & Hf).
    exists u. rewrite <- Htest. auto. }
  split; [exact Hhi|]. intros u Hu. rewrite <- Htest. now apply Hafter.
Qed.

(** On [emphasis_line], at offset 12 and for the style [em]: the range
    goes from 4 to 14, for the type [emphasis] of the first token has not
    the tag [em], although [em] occurs in it. *)
Lemma expandRange_run_of_tag_witness :
  (exists lo hi from_ch to_ch,
     (lo <= 2 <= hi)%nat /\
     expandRange no_other emphasis_line (Position.mk 0 12) "em" =
       Return (Some (Range.mk (Position.mk 0 from_ch) (Position.mk 0 to_ch))) /\
     (forall j u, (lo <= j <= hi)%nat ->
                  nth_error (getLineTokens emphasis_line 0) j = Some u ->
                  has_tag "em" (type_string u) = true) /\
     match lo with
     | O => from_ch = 0
     | S l => exists u,
                nth_error (getLineTokens emphasis_line 0) l = Some u /\
                has_tag "em" (type_string u) = false /\ from_ch = end_ u
     end /\
     (exists u, nth_error (getLineTokens emphasis_line 0) hi = Some u /\
                to_ch = end_ u) /\
     (forall u, nth_error (getLineTokens emphasis_line 0) (S hi) = Some u ->
                has_tag "em" (type_string u) = false)) /\
  expandRange no_other emphasis_line (Position.mk 0 12) "em" =
    Return (Some (Range.mk (Position.mk 0 4) (Position.mk 0 14))).
Proof.
  split; [|reflexivity].
  apply (expandRange_run_of_tag no_other emphasis_line (Position.mk 0 12) "em"
           2 (tok 10 14 "em")).
  - reflexivity.
  - reflexivity.
  - reflexivity.
  - simpl. lia.
  - intros j u Hj.
    destruct j as [|[|j]]; [| |lia]; intros [= <-]; simpl; lia.
  - reflexivity.
Defined.

(** ** Not found *)

(** X23. On a seeker that tracks a line [findNext] returns, and returns
    [null] exactly when no token of the searched range satisfies the
    condition: none on the tracked line from the starting index on, and,
    in a search that may span lines, none on the lines that follow. *)
Theorem findNext_null_exactly cm c condition varg since :
  exists r,
    returned (findNext cm (Some c) condition varg since) = Return r /\
    (r = None <->
     (forall j t, searched_here c varg since j ->
                  nth_error (lineTokens c) j = Some t ->
                  holds condition t = false) /\
     (varg = MaySpanLines true ->
      forall n, startLine c since <= n <= lastLine cm ->
                no_match cm condition since n)).
Proof. apply findNext_null_iff. Qed.

(** X24. When the pattern can be built, [expandRange] returns, and
    returns [null] exactly when no token of the line has
    [end >= pos.ch]. *)
Theorem expandRange_null_exactly js cm pos style re :
  styleRE js style = Some re ->
  exists r,
    expandRange js cm pos style = Return r /\
    (r = None <->
     ~ exists t, In t (getLineTokens cm (Position.line pos)) /\
                 end_ t >= Position.ch pos).
Proof.
  intros Hre. exists (range_with (test_type re) cm pos).
  split; [exact (expandRange_compiled js cm pos style re Hre)|].
  rewrite expandRange_null_iff. split.
  - intros Hall (t & Hin & Hge). apply Hall in Hin. lia.
  - intros Hno t Hin. destruct (Z_lt_ge_dec (end_ t) (Position.ch pos));
      [assumption|]. exfalso. apply Hno. eauto.
Qed.

(** On [one_token], whose only token ends at 3, at offset 9. *)
Lemma expandRange_null_exactly_witness :
  exists r,
    expandRange no_other one_token (Position.mk 0 9) "em" = Return r /\
    (r = None <->
     ~ exists t, In t (getLineTokens one_token 0) /\ end_ t >= 9).
Proof.
  apply (expandRange_null_exactly no_other one_token (Position.mk 0 9) "em"
           em_re).
  reflexivity.
Defined.

(** X25. When the pattern can be built and the line of [pos] has no
    token, [expandRange] returns [null], at [pos.ch = 0] as at any other
    offset. *)
Theorem expandRange_empty_line js cm pos style re :
  styleRE js style = Some re ->
  getLineTokens cm (Position.line pos) = [] ->
  expandRange js cm pos style = Return None.
Proof.
  intros Hre H. unfold expandRange. rewrite Hre, H. reflexivity.
Qed.

(** The empty line at offset 0. *)
Lemma expandRange_empty_line_witness :
  expandRange no_other empty_line (Position.mk 0 0) "em" = Return None.
Proof.
  apply (expandRange_empty_line no_other empty_line (Position.mk 0 0) "em"
           em_re).
  - reflexivity.
  - reflexivity.
Defined.
